(** * bespoke-fit: force field editing and workflow stages

    A shallow embedding of [openff/bespokefit/forcefield_tools.py]
    (class [ForceFieldEditor]) and [openff/bespokefit/collection_workflows.py]
    (class [WorkflowStage]), with the properties of the parameter
    reconciliation algorithm and of the workflow stage record.

    Python objects mutated in place are modelled by explicit state passing:
    a method returns the new state of every object it writes to.
    Python exceptions are modelled by the left summand of [outcome]. *)

From stdpp Require Import base strings list gmap pretty vector.

Open Scope string_scope.
Open Scope list_scope.
Open Scope nat_scope.

(** ** Exceptions *)

(** The exceptions the two modules can raise.  [KeyError] is the lookup
    failure of a mapping (the specification calls it [NotFound] for a handler
    lookup and [UnsupportedArity] for the arity table), [AssertionError] is
    the failed [assert] of [get_initial_parameters] (the specification's
    [AmbiguousClusterError]), [TypeError] is the iteration over [None],
    [IndexError] is a list index out of range and [AttributeError] the read
    of an attribute that the object does not have. *)
Inductive exn : Type :=
  | KeyError
  | AssertionError
  | TypeError
  | IndexError
  | AttributeError.

Definition outcome (A : Type) : Type := exn + A.

Definition raise {A : Type} (e : exn) : outcome A := inl e.
Definition ret {A : Type} (x : A) : outcome A := inr x.
Definition bind {A B : Type} (m : outcome A) (k : A → outcome B) : outcome B :=
  match m with
  | inl e => inl e
  | inr x => k x
  end.

Notation "'let*' x ':=' m 'in' k" := (bind m (λ x, k))
  (at level 10, x name, m at level 100, k at level 200, only parsing).

(** [d[key]] on a mapping given as a partial function. *)
Definition getitem {A : Type} (o : option A) : outcome A :=
  match o with
  | Some x => ret x
  | None => raise KeyError
  end.

Global Instance exn_eq_dec : EqDecision exn.
Proof. solve_decision. Defined.

(** ** Data model *)

(** [common_structures.SmirksType]: the four parameter classes.  The code
    keys its dictionaries by [smirk.type.value]; the values of an enumeration
    are pairwise distinct, so the member itself is the key here. *)
Inductive SmirksType : Type :=
  | Bonds
  | Angles
  | ProperTorsions
  | Vdw.

Global Instance SmirksType_eq_dec : EqDecision SmirksType.
Proof. solve_decision. Defined.

(** Modelled from the spec: the parameter record of the force field handle
    ([BondType], [AngleType], [ProperTorsionType], [vdWType] of the
    openforcefield toolkit, not part of this repository).  A record is keyed
    by its SMIRKS string, carries a stable identifier [id] and arbitrary
    value fields; [pt_class] is the class of the record, one per
    [SmirksType]. *)
Record ParameterType : Type := mkParameterType {
  pt_class : SmirksType;
  pt_smirks : string;
  pt_id : string;
  pt_fields : gmap string string
}.

Global Instance ParameterType_eq_dec : EqDecision ParameterType.
Proof. solve_decision. Defined.

(** Modelled from the spec: the constructor of a parameter record from the
    keyword dictionary [smirk_data], both for a new record (line 91) and for
    the re-initialisation of an existing one (line 88): the keys ["smirks"]
    and ["id"] become the key and the identifier, every other entry becomes
    a value field, and all fields are replaced at once.  A missing key reads as the
    empty string; [add_smirks] always passes both keys. *)
Definition ParameterType_init (cls : SmirksType) (kwargs : gmap string string)
    : ParameterType :=
  {| pt_class := cls;
     pt_smirks := default "" (kwargs !! "smirks");
     pt_id := default "" (kwargs !! "id");
     pt_fields := delete "smirks" (delete "id" kwargs) |}.

(** Modelled from the spec: the ordered collection of a parameter handler
    ([ParameterList] of the toolkit), a list of records that is also indexed
    by SMIRKS string. *)
Abbreviation ParameterList := (list ParameterType).

(** Modelled from the spec: lookup by key in a handler, [current_params[key]],
    the first record whose SMIRKS string is [key] together with its position;
    [None] is the failed lookup. *)
Definition ParameterList_find (current_params : ParameterList) (key : string)
    : option (nat * ParameterType) :=
  list_find (λ p, pt_smirks p = key) current_params.

Definition ParameterList_getitem (current_params : ParameterList) (key : string)
    : option ParameterType :=
  snd <$> ParameterList_find current_params key.

(** Modelled from the spec: the force field handle, one parameter handler per
    type.  [get_parameter_handler] returns the handler's collection; writing
    to that collection in place is [set_parameter_handler]. *)
Record ForceField : Type := mkForceField {
  ff_bonds : ParameterList;
  ff_angles : ParameterList;
  ff_propers : ParameterList;
  ff_vdw : ParameterList
}.

Global Instance ForceField_eq_dec : EqDecision ForceField.
Proof. solve_decision. Defined.

Definition get_parameter_handler (ff : ForceField) (t : SmirksType)
    : ParameterList :=
  match t with
  | Bonds => ff_bonds ff
  | Angles => ff_angles ff
  | ProperTorsions => ff_propers ff
  | Vdw => ff_vdw ff
  end.

Definition set_parameter_handler (ff : ForceField) (t : SmirksType)
    (l : ParameterList) : ForceField :=
  match t with
  | Bonds => mkForceField l (ff_angles ff) (ff_propers ff) (ff_vdw ff)
  | Angles => mkForceField (ff_bonds ff) l (ff_propers ff) (ff_vdw ff)
  | ProperTorsions => mkForceField (ff_bonds ff) (ff_angles ff) l (ff_vdw ff)
  | Vdw => mkForceField (ff_bonds ff) (ff_angles ff) (ff_propers ff) l
  end.

(** Modelled from the spec: the typed parameter of [schema.smirks]
    ([AtomSmirks], [BondSmirks], [AngleSmirks], [TorsionSmirks]): its type,
    its SMIRKS pattern, the set of atom-index tuples it covers, the marker
    written under ["parameterize"] when it is serialised, and its value
    fields. *)
Record SmirksSchema : Type := mkSmirksSchema {
  sm_type : SmirksType;
  sm_smirks : string;
  sm_atoms : gset (list nat);
  sm_parameterize : string;
  sm_values : gmap string string
}.

Global Instance SmirksSchema_eq_dec : EqDecision SmirksSchema.
Proof. solve_decision. Defined.

(** Modelled from the spec: [__eq__] of the typed parameters, two parameters
    of the same type are equal when their SMIRKS patterns are, whatever
    their atoms and values. *)
Definition smirks_eq (a b : SmirksSchema) : Prop :=
  sm_type a = sm_type b ∧ sm_smirks a = sm_smirks b.

Global Instance smirks_eq_dec a b : Decision (smirks_eq a b).
Proof. unfold smirks_eq. apply _. Defined.

(** Modelled from the spec: [to_off_smirks], the serialisation of a typed
    parameter to the keyword dictionary of the handler's record, with the
    pattern under ["smirks"] and the marker under ["parameterize"]. *)
Definition to_off_smirks (parameter : SmirksSchema) : gmap string string :=
  <["smirks" := sm_smirks parameter]>
    (<["parameterize" := sm_parameterize parameter]> (sm_values parameter)).

(** ** [ForceFieldEditor.add_smirks] *)

Definition _smirks_conversion (smirk_type : SmirksType)
    : gmap string string → ParameterType :=
  ParameterType_init smirk_type.

Definition _smirks_ids (smirk_type : SmirksType) : string :=
  match smirk_type with
  | Bonds => "b"
  | Angles => "a"
  | ProperTorsions => "t"
  | Vdw => "n"
  end.

(** The dictionary [new_params], in insertion order: one entry per type, in
    the order the types are first seen, each with its list of parameters. *)
Abbreviation NewParams := (list (SmirksType * list SmirksSchema)).

(** [smirk in l], decided with [__eq__]. *)
Definition smirk_in (smirk : SmirksSchema) (l : list SmirksSchema) : bool :=
  bool_decide (Exists (smirks_eq smirk) l).

(** One iteration of the first loop of [add_smirks] (lines 65-72). *)
Fixpoint new_params_add (smirk : SmirksSchema) (new_params : NewParams)
    : NewParams :=
  match new_params with
  | [] => [(sm_type smirk, [smirk])]
  | (t, parameters) :: rest =>
      if decide (t = sm_type smirk)
      then (t, if smirk_in smirk parameters
               then parameters
               else parameters ++ [smirk]) :: rest
      else (t, parameters) :: new_params_add smirk rest
  end.

Definition new_params_of (smirks : list SmirksSchema) : NewParams :=
  foldl (λ new_params smirk, new_params_add smirk new_params) [] smirks.

(** The body of the inner loop of [add_smirks] (lines 80-91) on the
    collection [current_params]; [del smirk_data["parameterize"]] cannot
    fail, the key is always set by [to_off_smirks]. *)
Definition add_parameter (parameterize : bool) (smirk_type : SmirksType)
    (no_params : nat) (current_params : ParameterList)
    (i : nat) (parameter : SmirksSchema) : ParameterList :=
  let smirk_data := to_off_smirks parameter in
  let smirk_data :=
    if parameterize then smirk_data else delete "parameterize" smirk_data in
  match ParameterList_find current_params (sm_smirks parameter) with
  | Some (index, current_param) =>
      let smirk_data := <["id" := pt_id current_param]> smirk_data in
      <[index := ParameterType_init (pt_class current_param) smirk_data]>
        current_params
  | None =>
      let smirk_data :=
        <["id" := _smirks_ids smirk_type +:+ pretty (no_params + i)]>
          smirk_data in
      current_params ++ [_smirks_conversion smirk_type smirk_data]
  end.

(** [for i, parameter in enumerate(parameters, start=i)]. *)
Fixpoint add_parameters (parameterize : bool) (smirk_type : SmirksType)
    (no_params : nat) (current_params : ParameterList)
    (i : nat) (parameters : list SmirksSchema) : ParameterList :=
  match parameters with
  | [] => current_params
  | parameter :: rest =>
      add_parameters parameterize smirk_type no_params
        (add_parameter parameterize smirk_type no_params current_params
           i parameter)
        (S i) rest
  end.

(** One iteration of the outer loop (lines 74-91): [no_params] is read once,
    before the inner loop. *)
Definition add_smirks_type (parameterize : bool) (self : ForceField)
    (entry : SmirksType * list SmirksSchema) : ForceField :=
  let '(smirk_type, parameters) := entry in
  let current_params := get_parameter_handler self smirk_type in
  let no_params := length current_params in
  set_parameter_handler self smirk_type
    (add_parameters parameterize smirk_type no_params current_params
       2 parameters).

Definition add_smirks (self : ForceField) (smirks : list SmirksSchema)
    (parameterize : bool) : ForceField :=
  foldl (add_smirks_type parameterize) self (new_params_of smirks).

(** [new_params[t]], the empty list when [t] is not a key: the parameters
    of type [t] that the second loop processes, in this order. *)
Fixpoint new_params_get (new_params : NewParams) (t : SmirksType)
    : list SmirksSchema :=
  match new_params with
  | [] => []
  | (t', parameters) :: rest =>
      if decide (t' = t) then parameters else new_params_get rest t
  end.

Definition unique_params (t : SmirksType) (smirks : list SmirksSchema)
    : list SmirksSchema :=
  new_params_get (new_params_of smirks) t.

(** The dictionary handed to the handler for [parameter]. *)
Definition smirk_data_of (parameterize : bool) (parameter : SmirksSchema)
    : gmap string string :=
  if parameterize then to_off_smirks parameter
  else delete "parameterize" (to_off_smirks parameter).

(** The record that the handler holds for [parameter] once it is written
    with class [cls] and identifier [x]. *)
Definition record_of (parameterize : bool) (parameter : SmirksSchema)
    (cls : SmirksType) (x : string) : ParameterType :=
  ParameterType_init cls (<["id" := x]> (smirk_data_of parameterize parameter)).

(** A handler record is settled for [parameter] when the lookup of the
    parameter's pattern finds a record that already holds the parameter's
    serialised fields. *)
Definition settled (parameterize : bool) (current_params : ParameterList)
    (parameter : SmirksSchema) : Prop :=
  ∃ index r,
    ParameterList_find current_params (sm_smirks parameter) = Some (index, r) ∧
    r = record_of parameterize parameter (pt_class r) (pt_id r).

(** A sequence of calls of [add_smirks], each with its batch and flag. *)
Definition add_smirks_calls (self : ForceField)
    (calls : list (list SmirksSchema * bool)) : ForceField :=
  foldl (λ ff call, add_smirks ff call.1 call.2) self calls.

(** ** Molecule labelling and the typed parameters *)

(** Modelled from the spec: the result of labelling a molecule, per parameter
    type a mapping from atom-index tuple to the record that governs it;
    [None] is the failed lookup of a tuple that has no label. *)
Definition Labels : Type := SmirksType → list nat → option ParameterType.

(** Modelled from the spec: [utils.smirks_from_off], the conversion of a
    handler record to the typed parameter of the record's class, with the
    record's pattern and value fields and no atoms yet. *)
Definition smirks_from_off (off_smirks : ParameterType) : SmirksSchema :=
  {| sm_type := pt_class off_smirks;
     sm_smirks := pt_smirks off_smirks;
     sm_atoms := ∅;
     sm_parameterize := "";
     sm_values := pt_fields off_smirks |}.

(** [smirk.atoms.add(atom_ids)]. *)
Definition atoms_add (smirk : SmirksSchema) (atom_ids : list nat)
    : SmirksSchema :=
  {| sm_type := sm_type smirk;
     sm_smirks := sm_smirks smirk;
     sm_atoms := {[atom_ids]} ∪ sm_atoms smirk;
     sm_parameterize := sm_parameterize smirk;
     sm_values := sm_values smirk |}.

Definition _atoms_to_params (n : nat) : option SmirksType :=
  match n with
  | 1 => Some Vdw
  | 2 => Some Bonds
  | 3 => Some Angles
  | 4 => Some ProperTorsions
  | _ => None
  end.

(** The pair that [__eq__] compares, for a typed parameter and for the
    handler record it is converted from. *)
Definition smirks_key (p : SmirksSchema) : SmirksType * string :=
  (sm_type p, sm_smirks p).

Definition record_key (r : ParameterType) : SmirksType * string :=
  (pt_class r, pt_smirks r).

(** The record that governs a tuple (lines 125-127): the type from the
    arity of the tuple, then the label mapping of that type. *)
Definition governing (labels : Labels) (atom_ids : list nat)
    : option ParameterType :=
  match _atoms_to_params (length atom_ids) with
  | Some smirk_class => labels smirk_class atom_ids
  | None => None
  end.

(** In the specification's words: the deduplicated list, preserving
    first-encounter order.  A key is kept when it is not among the keys
    seen so far. *)
Fixpoint first_encounters (seen l : list (SmirksType * string))
    : list (SmirksType * string) :=
  match l with
  | [] => []
  | k :: l' =>
      if decide (k ∈ seen) then first_encounters seen l'
      else k :: first_encounters (seen ++ [k]) l'
  end.

(** The requested tuples that a pattern of a type governs. *)
Definition atoms_for (labels : Labels) (k : SmirksType * string)
    (atoms : list (list nat)) : gset (list nat) :=
  list_to_set
    (filter (λ a, record_key <$> governing labels a = Some k) atoms).

(** The atoms of the parameter of a list that has a given key. *)
Definition atoms_of_key (smirks : list SmirksSchema) (k : SmirksType * string)
    : gset (list nat) :=
  match list_find (λ x, smirks_key x = k) smirks with
  | Some e => sm_atoms e.2
  | None => ∅
  end.

Section editor.
(** The molecule type of the toolkit and the labelling of a molecule by a
    force field, [forcefield.label_molecules(molecule.to_topology())[0]],
    are external. *)
Variable Molecule : Type.
Variable label_molecules : ForceField → Molecule → Labels.

(** The default values of the value fields of each type, and the default
    of the keyword [clear_existing] of [update_parameters], are constants
    of [schema.smirks]. *)
Variable default_values : SmirksType → gmap string string.
Variable clear_existing_default : bool.

(** Modelled from the spec: [update_parameters], which overwrites the
    value fields of a typed parameter from a handler record, after
    resetting them to the defaults of the type when [clear_existing] is
    set, and leaves type, pattern and atoms as they are. *)
Definition update_parameters (smirk : SmirksSchema)
    (off_smirk : ParameterType) (clear_existing : bool) : SmirksSchema :=
  {| sm_type := sm_type smirk;
     sm_smirks := sm_smirks smirk;
     sm_atoms := sm_atoms smirk;
     sm_parameterize := sm_parameterize smirk;
     sm_values :=
       pt_fields off_smirk ∪
       (if clear_existing then default_values (sm_type smirk)
        else sm_values smirk) |}.

Definition label_molecule (self : ForceField) (molecule : Molecule)
    : Labels :=
  label_molecules self molecule.

(** *** [get_smirks_parameters] *)

(** The body of the loop (lines 124-135). *)
Definition get_smirks_parameters_step (labels : Labels)
    (smirks : list SmirksSchema) (atom_ids : list nat)
    : outcome (list SmirksSchema) :=
  let* smirk_class := getitem (_atoms_to_params (length atom_ids)) in
  let* off_param := getitem (labels smirk_class atom_ids) in
  let smirk := atoms_add (smirks_from_off off_param) atom_ids in
  match list_find (λ x, smirks_eq x smirk) smirks with
  | None => ret (smirks ++ [smirk])
  | Some (index, found) =>
      ret (<[index := atoms_add found atom_ids]> smirks)
  end.

Fixpoint get_smirks_parameters_loop (labels : Labels)
    (smirks : list SmirksSchema) (atoms : list (list nat))
    : outcome (list SmirksSchema) :=
  match atoms with
  | [] => ret smirks
  | atom_ids :: rest =>
      let* smirks := get_smirks_parameters_step labels smirks atom_ids in
      get_smirks_parameters_loop labels smirks rest
  end.

Definition get_smirks_parameters (self : ForceField) (molecule : Molecule)
    (atoms : list (list nat)) : outcome (list SmirksSchema) :=
  let labels := label_molecule self molecule in
  get_smirks_parameters_loop labels [] atoms.

(** *** [update_smirks_parameters] *)

(** [self.forcefield.get_parameter_handler(smirk.type.value)
    .parameters[smirk.smirks]] (lines 153-155). *)
Definition handler_record (self : ForceField) (smirk : SmirksSchema)
    : option ParameterType :=
  ParameterList_getitem (get_parameter_handler self (sm_type smirk))
    (sm_smirks smirk).

(** The inputs are objects that the loop mutates in place, and one object
    may occur more than once in the iterable.  [store] holds the objects,
    each once, and [smirks] is the iterable as references into it; the
    function returns the new state of the objects together with the
    outcome, and an exception leaves the store as the loop has made it so
    far. *)
Fixpoint update_smirks_parameters {n : nat} (self : ForceField)
    (store : vec SmirksSchema n) (smirks : list (fin n))
    : vec SmirksSchema n * outcome unit :=
  match smirks with
  | [] => (store, ret ())
  | smirk :: rest =>
      match handler_record self (store !!! smirk) with
      | None => (store, raise KeyError)
      | Some new_parameter =>
          update_smirks_parameters self
            (vinsert smirk
               (update_parameters (store !!! smirk) new_parameter
                  clear_existing_default)
               store)
            rest
      end
  end.

(** The state of an object once the loop has processed a reference to it:
    overwritten from the record that the lookup finds. *)
Definition updated_object (self : ForceField) (smirk : SmirksSchema)
    : SmirksSchema :=
  match handler_record self smirk with
  | Some new_parameter =>
      update_parameters smirk new_parameter clear_existing_default
  | None => smirk
  end.


(** *** [get_initial_parameters] *)

(** The loop of lines 172-174 over the tuples of [smirk.atoms]. *)
Fixpoint resolve_atoms (parameters : list nat → option ParameterType)
    (atoms : list (list nat)) : outcome (list ParameterType) :=
  match atoms with
  | [] => ret []
  | atom_ids :: rest =>
      let* param := getitem (parameters atom_ids) in
      let* openff_params := resolve_atoms parameters rest in
      ret (param :: openff_params)
  end.

(** The set [smirk.atoms] is iterated in the order of [elements]; the
    order of a Python set is not specified either. *)
Definition get_initial_parameters (self : ForceField) (molecule : Molecule)
    (smirk : SmirksSchema) (clear_existing : bool)
    : outcome SmirksSchema :=
  let labels := label_molecule self molecule in
  let parameters := labels (sm_type smirk) in
  let* openff_params := resolve_atoms parameters (elements (sm_atoms smirk)) in
  let types : gset string := list_to_set (pt_id <$> openff_params) in
  if decide (size types = 1) then
    match openff_params with
    | off_smirk :: _ => ret (update_parameters smirk off_smirk clear_existing)
    | [] => raise IndexError
    end
  else raise AssertionError.
End editor.

(** ** [collection_workflows] *)

Inductive CollectionMethod : Type :=
  | TorsionDrive1D
  | TorsionDrive2D
  | Optimization
  | Hessian
  | Energy
  | Gradient
  | Local.

Inductive Precedence : Type :=
  | Serial
  | Parallel.

(** Modelled from the spec: [common_structures.Status], the lifecycle state
    of a stage. *)
Inductive Status : Type :=
  | Prepared
  | Running
  | Collected
  | Error.

(** The length unit of [simtk.unit] that the geometries are tagged with. *)
Inductive LengthUnit : Type :=
  | bohr.

Section workflow.
(** The raw geometry array of a result record is opaque here. *)
Variable ndarray : Type.

(** Modelled from the spec: the result record of the submission library
    ([openff.qcsubmit.results.SingleResult]), read through
    [result.molecule.geometry]. *)
Record QCMolecule : Type := mkQCMolecule {
  geometry : ndarray
}.

Record SingleResult : Type := mkSingleResult {
  molecule : QCMolecule
}.

(** [unit.Quantity(value, unit)]. *)
Record Quantity : Type := mkQuantity {
  q_value : ndarray;
  q_unit : LengthUnit
}.

(** The fields of [WorkflowStage], as the class declares them; the values
    of [keywords] are opaque here and kept as strings. *)
Record WorkflowStage : Type := mkWorkflowStage {
  method : CollectionMethod;
  result : option (list SingleResult);
  status : Status;
  keywords : gmap string string;
  precedence : Precedence;
  retires : Z;
  job_id : string
}.

(** The constructor with the declared defaults, called as in the
    templates: [WorkflowStage(method=m, precedence=p)]. *)
Definition WorkflowStage_init (m : CollectionMethod) (p : Precedence)
    : WorkflowStage :=
  {| method := m;
     result := None;
     status := Prepared;
     keywords := ∅;
     precedence := p;
     retires := 0%Z;
     job_id := "" |}.

(** The value of an attribute of a stage. *)
Inductive attribute : Type :=
  | AMethod (m : CollectionMethod)
  | AResult (r : option (list SingleResult))
  | AStatus (s : Status)
  | AKeywords (k : gmap string string)
  | APrecedence (p : Precedence)
  | AInt (z : Z)
  | AStr (s : string).

(** [getattr(self, name)] for the fields that the class declares, and for
    names that are no attribute at all; the class attribute [_enum_fields],
    the method and what the base classes provide are not read through this
    function. *)
Definition WorkflowStage_getattr (self : WorkflowStage) (name : string)
    : outcome attribute :=
  if decide (name = "method") then ret (AMethod (method self))
  else if decide (name = "result") then ret (AResult (result self))
  else if decide (name = "status") then ret (AStatus (status self))
  else if decide (name = "keywords") then ret (AKeywords (keywords self))
  else if decide (name = "precedence")
    then ret (APrecedence (precedence self))
  else if decide (name = "retires") then ret (AInt (retires self))
  else if decide (name = "job_id") then ret (AStr (job_id self))
  else raise AttributeError.

(** The loop of [get_result_geometries] (lines 47-49). *)
Fixpoint get_result_geometries_loop (geometries : list Quantity)
    (results : list SingleResult) : list Quantity :=
  match results with
  | [] => geometries
  | r :: rest =>
      let new_geometry := mkQuantity (geometry (molecule r)) bohr in
      get_result_geometries_loop (geometries ++ [new_geometry]) rest
  end.

(** Iterating over [self.result] when it is [None] raises. *)
Definition get_result_geometries (self : WorkflowStage)
    : outcome (list Quantity) :=
  match result self with
  | None => raise TypeError
  | Some results => ret (get_result_geometries_loop [] results)
  end.

Definition OptimizationWorkflow : list WorkflowStage :=
  [WorkflowStage_init Optimization Serial].

Definition TorsiondriveWorkflow : list WorkflowStage :=
  [WorkflowStage_init TorsionDrive1D Serial].

Definition HessianWorkflow : list WorkflowStage :=
  [WorkflowStage_init Optimization Serial;
   WorkflowStage_init Hessian Serial].

Definition RespWorkflow : list WorkflowStage :=
  [WorkflowStage_init Optimization Serial;
   WorkflowStage_init Energy Serial;
   WorkflowStage_init Local Serial].
End workflow.

Arguments geometry {ndarray} _.
Arguments molecule {ndarray} _.
Arguments mkQCMolecule {ndarray} _.
Arguments mkSingleResult {ndarray} _.
Arguments mkQuantity {ndarray} _ _.
Arguments q_value {ndarray} _.
Arguments q_unit {ndarray} _.
Arguments method {ndarray} _.
Arguments result {ndarray} _.
Arguments status {ndarray} _.
Arguments keywords {ndarray} _.
Arguments precedence {ndarray} _.
Arguments retires {ndarray} _.
Arguments job_id {ndarray} _.
Arguments WorkflowStage_getattr {ndarray} _ _.
Arguments get_result_geometries {ndarray} _.
Arguments get_result_geometries_loop {ndarray} _ _.


(** ** A small force field, to run the definitions on *)

Definition example_cc : ParameterType :=
  mkParameterType Bonds "[#6:1]-[#6:2]" "b1" {["k" := "600.0"]}.

Definition example_ch : ParameterType :=
  mkParameterType Bonds "[#6:1]-[#1:2]" "b2" {["k" := "700.0"]}.

Definition example_forcefield : ForceField :=
  mkForceField [example_cc; example_ch] [] [] [].

(** A labelling for the examples: the first atom index of a tuple picks the
    record of the handler of the tuple's type. *)
Definition example_label_molecules (ff : ForceField) (molecule : unit)
    : Labels :=
  λ t atom_ids, get_parameter_handler ff t !! default 0 (head atom_ids).

Definition example_default_values : SmirksType → gmap string string :=
  λ _, ∅.

Definition example_smirk_cc : SmirksSchema :=
  mkSmirksSchema Bonds "[#6:1]-[#6:2]" {[ [0; 1] ]} "k" {["k" := "620.0"]}.

Definition example_smirk_cc_later : SmirksSchema :=
  mkSmirksSchema Bonds "[#6:1]-[#6:2]" ∅ "k" {["k" := "640.0"]}.

Definition example_smirk_co : SmirksSchema :=
  mkSmirksSchema Bonds "[#6:1]-[#8:2]" ∅ "k" {["k" := "900.0"]}.

Definition example_smirk_cn : SmirksSchema :=
  mkSmirksSchema Bonds "[#6:1]-[#7:2]" ∅ "k" {["k" := "800.0"]}.

(** ** The string values of the enumerations *)

(** [CollectionMethod] and [Precedence] are [str] enumerations: each
    member has the string value that the class body gives it (lines 12-18
    and 23-24). *)
Definition CollectionMethod_value (m : CollectionMethod) : string :=
  match m with
  | TorsionDrive1D => "torsiondrive1d"
  | TorsionDrive2D => "torsiondrive2d"
  | Optimization => "optimization"
  | Hessian => "hessian"
  | Energy => "energy"
  | Gradient => "gradient"
  | Local => "local"
  end.

Definition CollectionMethod_members : list CollectionMethod :=
  [TorsionDrive1D; TorsionDrive2D; Optimization; Hessian; Energy; Gradient;
   Local].

Definition Precedence_value (p : Precedence) : string :=
  match p with
  | Serial => "serial"
  | Parallel => "parallel"
  end.

Definition Precedence_members : list Precedence := [Serial; Parallel].

(** [CollectionMethod(value)] and [Precedence(value)]: the first member, in
    definition order, that has the value; [None] stands for the
    [ValueError] of a string that is the value of no member. *)
Definition CollectionMethod_of_value (value : string)
    : option CollectionMethod :=
  snd <$> list_find (λ m, CollectionMethod_value m = value)
            CollectionMethod_members.

Definition Precedence_of_value (value : string) : option Precedence :=
  snd <$> list_find (λ p, Precedence_value p = value) Precedence_members.

(** [WorkflowStage._enum_fields] (line 40). *)
Definition _enum_fields : list string := ["precedence"; "status"; "method"].

(** An attribute that holds a member of an enumeration. *)
Definition attribute_is_enum {ndarray : Type} (v : attribute ndarray) : bool :=
  match v with
  | AMethod _ _ | AStatus _ _ | APrecedence _ _ => true
  | _ => false
  end.

(** ** [ForceFieldEditor.__init__] *)

(** Lines 37-41, on the dictionary [_parameter_handlers] of the force field
    that the constructor has loaded: the handler under ["Constraints"] is
    deleted, and the [KeyError] of a dictionary without that key is caught
    and ignored.  The handlers themselves are opaque here. *)
Definition strip_constraints {Handler : Type}
    (_parameter_handlers : gmap string Handler) : gmap string Handler :=
  match _parameter_handlers !! "Constraints" with
  | Some _ => delete "Constraints" _parameter_handlers
  | None => _parameter_handlers
  end.

(** * Properties *)

(** ** The force field handle as a store *)

Lemma get_set_parameter_handler ff t l :
  get_parameter_handler (set_parameter_handler ff t l) t = l.
Proof. by destruct t. Qed.

Lemma get_set_parameter_handler_ne ff t t' l :
  t ≠ t' →
  get_parameter_handler (set_parameter_handler ff t l) t' =
  get_parameter_handler ff t'.
Proof. by destruct t, t'. Qed.

Lemma ForceField_ext ff1 ff2 :
  (∀ t, get_parameter_handler ff1 t = get_parameter_handler ff2 t) →
  ff1 = ff2.
Proof.
  intros H. destruct ff1, ff2.
  pose proof (H Bonds). pose proof (H Angles).
  pose proof (H ProperTorsions). pose proof (H Vdw).
  simpl in *. congruence.
Qed.

(** ** Lookup by key under in-place update and append *)

Section find_key.
Context {A K : Type} `{EqDecision K} (f : A → K).

Lemma list_find_key_insert (l : list A) (i : nat) (x y : A) (s : K) :
  l !! i = Some x → f y = f x →
  list_find (λ r, f r = s) (<[i:=y]> l) =
  (λ e : nat * A, (e.1, if decide (e.1 = i) then y else e.2))
    <$> list_find (λ r, f r = s) l.
Proof.
  revert i. induction l as [|z l IH]; intros i Hi Hf; [done|].
  destruct i as [|i]; simplify_eq/=.
  - rewrite Hf. case_decide; [done|].
    destruct (list_find _ l) as [[j w]|]; [|done]. by simpl.
  - case_decide; [done|].
    rewrite (IH i) by done.
    destruct (list_find _ l) as [[j w]|]; [|done]. simpl.
    do 2 f_equal. repeat case_decide; done || lia.
Qed.

Lemma list_find_key_snoc (l : list A) (y : A) (s : K) :
  list_find (λ r, f r = s) (l ++ [y]) =
  match list_find (λ r, f r = s) l with
  | Some e => Some e
  | None => if decide (f y = s) then Some (length l, y) else None
  end.
Proof.
  destruct (list_find _ l) as [[j w]|] eqn:E.
  - by apply list_find_app_l.
  - rewrite list_find_app_r by done. simpl. by case_decide.
Qed.

Lemma list_find_key_cons (l : list A) (y : A) (s : K) :
  list_find (λ r, f r = s) (y :: l) =
  if decide (f y = s) then Some (0, y)
  else prod_map S id <$> list_find (λ r, f r = s) l.
Proof. done. Qed.

Lemma list_find_key_None (l : list A) (s : K) :
  list_find (λ r, f r = s) l = None ↔ s ∉ f <$> l.
Proof.
  rewrite list_find_None, Forall_forall, list_elem_of_fmap. split.
  - intros Hl (y & -> & Hy). by apply (Hl y).
  - intros Hs y Hy <-. apply Hs. by exists y.
Qed.

Lemma filter_key_notin (l : list A) (s : K) :
  s ∉ f <$> l → filter (λ r, f r = s) l = [].
Proof.
  induction l as [|z l IH]; [done|].
  rewrite fmap_cons. intros [??]%not_elem_of_cons.
  rewrite filter_cons, decide_False by done. auto.
Qed.

Lemma head_filter_key (l : list A) (s : K) :
  head (filter (λ r, f r = s) l) = snd <$> list_find (λ r, f r = s) l.
Proof.
  induction l as [|z l IH]; [done|].
  rewrite filter_cons, list_find_key_cons. case_decide; [done|].
  rewrite IH. by destruct (list_find _ l) as [[??]|].
Qed.

Lemma filter_key_insert_first (l : list A) (i : nat) (x y : A) (s : K) :
  list_find (λ r, f r = s) l = Some (i, x) → f y = s →
  filter (λ r, f r = s) (<[i:=y]> l) = y :: tail (filter (λ r, f r = s) l).
Proof.
  revert i. induction l as [|z l IH]; intros i; [done|].
  rewrite list_find_key_cons. case_decide as Hz.
  - intros ? Hy; simplify_eq/=. rewrite !filter_cons.
    by rewrite !decide_True by done.
  - intros ([j w] & ? & Hfind)%fmap_Some Hy; simplify_eq/=.
    rewrite !filter_cons. rewrite !decide_False by done. by apply IH.
Qed.

Lemma filter_key_insert_other (l : list A) (i : nat) (x y : A) (s : K) :
  l !! i = Some x → f x ≠ s → f y ≠ s →
  filter (λ r, f r = s) (<[i:=y]> l) = filter (λ r, f r = s) l.
Proof.
  revert i. induction l as [|z l IH]; intros i Hi Hx Hy; [done|].
  destruct i as [|i]; simplify_eq/=.
  - rewrite !filter_cons. by rewrite !decide_False by done.
  - rewrite !filter_cons. rewrite (IH i) by done. done.
Qed.

Lemma filter_key_NoDup (l : list A) (s : K) :
  NoDup (f <$> l) →
  filter (λ r, f r = s) l =
  option_list (snd <$> list_find (λ r, f r = s) l).
Proof.
  induction l as [|z l IH]; [done|].
  rewrite fmap_cons. intros [Hz Hnd]%NoDup_cons.
  rewrite filter_cons, list_find_key_cons. case_decide as Hs.
  - simpl. f_equal. subst s. by apply filter_key_notin.
  - rewrite IH by done. by destruct (list_find _ l) as [[??]|].
Qed.

Lemma list_find_key_lookup (l : list A) (s : K) (i : nat) (x : A) :
  list_find (λ r, f r = s) l = Some (i, x) → l !! i = Some x ∧ f x = s.
Proof. intros (?&?&_)%list_find_Some. done. Qed.
End find_key.

(** ** The record written for a parameter *)

Lemma smirk_data_of_smirks par p x :
  <["id" := x]> (smirk_data_of par p) !! "smirks" = Some (sm_smirks p).
Proof.
  unfold smirk_data_of, to_off_smirks. destruct par; by simplify_map_eq.
Qed.

Lemma record_of_smirks par p c x : pt_smirks (record_of par p c x) = sm_smirks p.
Proof. unfold record_of. simpl. by rewrite smirk_data_of_smirks. Qed.

Lemma record_of_id par p c x : pt_id (record_of par p c x) = x.
Proof. unfold record_of. simpl. by rewrite lookup_insert_eq. Qed.

Lemma record_of_class par p c x : pt_class (record_of par p c x) = c.
Proof. done. Qed.

(** The value fields of the record do not depend on the identifier. *)
Lemma record_of_fields par p c x :
  pt_fields (record_of par p c x) =
  delete "smirks" (delete "id" (smirk_data_of par p)).
Proof. unfold record_of. simpl. by rewrite delete_insert_eq. Qed.

(** [to_off_smirks] always sets the key that line 82 deletes. *)
Lemma to_off_smirks_parameterize p :
  to_off_smirks p !! "parameterize" = Some (sm_parameterize p).
Proof. unfold to_off_smirks. by simplify_map_eq. Qed.

(** The two branches of the loop body. *)
Lemma add_parameter_found par t N h i p idx cur :
  ParameterList_find h (sm_smirks p) = Some (idx, cur) →
  add_parameter par t N h i p =
  <[idx := record_of par p (pt_class cur) (pt_id cur)]> h.
Proof. unfold add_parameter. by intros ->. Qed.

Lemma add_parameter_new par t N h i p :
  ParameterList_find h (sm_smirks p) = None →
  add_parameter par t N h i p =
  h ++ [record_of par p t (_smirks_ids t +:+ pretty (N + i))].
Proof. unfold add_parameter. by intros ->. Qed.

(** ** The first loop: grouping and deduplication *)

Lemma new_params_get_add smirk np t :
  new_params_get (new_params_add smirk np) t =
  if decide (t = sm_type smirk)
  then (if smirk_in smirk (new_params_get np t)
        then new_params_get np t
        else new_params_get np t ++ [smirk])
  else new_params_get np t.
Proof.
  induction np as [|[t' ps] np IH]; simpl.
  - repeat case_decide; by simplify_eq.
  - destruct (decide (t' = sm_type smirk)) as [->|Hne]; simpl.
    + repeat case_decide; by simplify_eq.
    + rewrite IH. repeat case_decide; by simplify_eq.
Qed.

Lemma new_params_add_keys smirk np :
  np.*1 `sublist_of` (new_params_add smirk np).*1 ∧
  ∀ t, t ∈ (new_params_add smirk np).*1 → t ∈ np.*1 ∨ t = sm_type smirk.
Proof.
  induction np as [|[t' ps] np [IH1 IH2]]; simpl.
  - split; [apply sublist_nil_l|]. intros t ?%list_elem_of_singleton. by right.
  - case_decide; simpl.
    + split; [done|]. intros t ?. by left.
    + split; [by apply sublist_skip|].
      intros t [->|[?|?]%IH2]%elem_of_cons; [left; left|left; by right|by right].
Qed.

Lemma new_params_add_NoDup smirk np :
  NoDup np.*1 → NoDup (new_params_add smirk np).*1.
Proof.
  induction np as [|[t' ps] np IH]; simpl; intros Hnd.
  - apply NoDup_singleton.
  - case_decide; simpl; [done|].
    apply NoDup_cons in Hnd as [Hnotin Hnd].
    apply NoDup_cons. split; [|by apply IH].
    intros [?|?]%new_params_add_keys; [done|by simplify_eq].
Qed.

Lemma new_params_of_snoc smirks smirk :
  new_params_of (smirks ++ [smirk]) =
  new_params_add smirk (new_params_of smirks).
Proof. unfold new_params_of. by rewrite foldl_snoc. Qed.

Lemma new_params_of_NoDup smirks : NoDup (new_params_of smirks).*1.
Proof.
  induction smirks as [|smirk smirks IH] using rev_ind.
  - apply NoDup_nil_2.
  - rewrite new_params_of_snoc. by apply new_params_add_NoDup.
Qed.

Lemma new_params_get_notin np t : t ∉ np.*1 → new_params_get np t = [].
Proof.
  induction np as [|[t' ps] np IH]; simpl; [done|].
  intros [??]%not_elem_of_cons. case_decide; [by simplify_eq|auto].
Qed.

(** The per-type list grows by one parameter at a time, exactly as the loop
    of lines 65-72 says. *)
Lemma unique_params_snoc t smirks smirk :
  unique_params t (smirks ++ [smirk]) =
  if decide (t = sm_type smirk)
  then (if smirk_in smirk (unique_params t smirks)
        then unique_params t smirks
        else unique_params t smirks ++ [smirk])
  else unique_params t smirks.
Proof.
  unfold unique_params. by rewrite new_params_of_snoc, new_params_get_add.
Qed.

Lemma unique_params_nil t : unique_params t [] = [].
Proof. done. Qed.

Lemma unique_params_type t smirks :
  Forall (λ p, sm_type p = t) (unique_params t smirks).
Proof.
  induction smirks as [|smirk smirks IH] using rev_ind; [done|].
  rewrite unique_params_snoc. repeat case_decide; try done.
  destruct (smirk_in _ _); [done|].
  apply Forall_app. split; [done|]. by apply Forall_singleton.
Qed.

Lemma smirk_in_spec smirk l :
  smirk_in smirk l = true ↔ ∃ q, q ∈ l ∧ smirks_eq smirk q.
Proof.
  unfold smirk_in. rewrite bool_decide_eq_true, Exists_exists. done.
Qed.

Lemma smirk_in_typed t smirk l :
  sm_type smirk = t → Forall (λ p, sm_type p = t) l →
  smirk_in smirk l = true ↔ sm_smirks smirk ∈ sm_smirks <$> l.
Proof.
  intros Ht Hl. rewrite smirk_in_spec, list_elem_of_fmap. split.
  - intros (q & Hq & _ & Hs). eauto.
  - intros (q & Hs & Hq). exists q. split; [done|]. split; [|done].
    rewrite Forall_forall in Hl. rewrite (Hl q Hq). done.
Qed.

Lemma unique_params_NoDup t smirks :
  NoDup (sm_smirks <$> unique_params t smirks).
Proof.
  induction smirks as [|smirk smirks IH] using rev_ind.
  - apply NoDup_nil_2.
  - rewrite unique_params_snoc. case_decide as Ht; [|done].
    destruct (smirk_in _ _) eqn:E; [done|].
    rewrite fmap_app. apply NoDup_app. split_and!; [done| |apply NoDup_singleton].
    intros s Hs ->%list_elem_of_singleton.
    apply (smirk_in_typed t) in Hs; [congruence|done|apply unique_params_type].
Qed.

Lemma unique_params_sublist t smirks :
  unique_params t smirks `sublist_of` smirks.
Proof.
  induction smirks as [|smirk smirks IH] using rev_ind; [done|].
  rewrite unique_params_snoc. case_decide.
  - destruct (smirk_in _ _).
    + by apply sublist_inserts_r.
    + by apply sublist_app.
  - by apply sublist_inserts_r.
Qed.


(** ** The second loop, handler by handler *)

Lemma add_smirks_type_handler par ff t ps t' :
  get_parameter_handler (add_smirks_type par ff (t, ps)) t' =
  if decide (t = t')
  then add_parameters par t (length (get_parameter_handler ff t))
         (get_parameter_handler ff t) 2 ps
  else get_parameter_handler ff t'.
Proof.
  simpl. case_decide as Ht.
  - subst. apply get_set_parameter_handler.
  - by apply get_set_parameter_handler_ne.
Qed.

Lemma foldl_add_smirks_type_handler par np ff t :
  NoDup np.*1 →
  get_parameter_handler (foldl (add_smirks_type par) ff np) t =
  add_parameters par t (length (get_parameter_handler ff t))
    (get_parameter_handler ff t) 2 (new_params_get np t).
Proof.
  revert ff. induction np as [|[t' ps] np IH]; intros ff Hnd; [done|].
  apply NoDup_cons in Hnd as [Hnotin Hnd].
  change (foldl (add_smirks_type par) ff ((t', ps) :: np))
    with (foldl (add_smirks_type par) (add_smirks_type par ff (t', ps)) np).
  rewrite IH by done. rewrite add_smirks_type_handler.
  change (new_params_get ((t', ps) :: np) t)
    with (if decide (t' = t) then ps else new_params_get np t).
  case_decide as Ht; [|done].
  subst. by rewrite new_params_get_notin.
Qed.

(** Each handler is rewritten by one run of the inner loop over the
    deduplicated parameters of its type, from its state before the call. *)
Lemma add_smirks_handler ff smirks par t :
  get_parameter_handler (add_smirks ff smirks par) t =
  add_parameters par t (length (get_parameter_handler ff t))
    (get_parameter_handler ff t) 2 (unique_params t smirks).
Proof.
  unfold add_smirks, unique_params.
  apply foldl_add_smirks_type_handler, new_params_of_NoDup.
Qed.

(** ** One step of the inner loop, seen through the lookup by key *)

Lemma add_parameter_find par t N h i p s :
  ParameterList_find (add_parameter par t N h i p) s =
  match ParameterList_find h s with
  | Some (idx, r) =>
      Some (idx, if decide (s = sm_smirks p)
                 then record_of par p (pt_class r) (pt_id r) else r)
  | None =>
      if decide (s = sm_smirks p)
      then Some (length h, record_of par p t (_smirks_ids t +:+ pretty (N + i)))
      else None
  end.
Proof.
  unfold ParameterList_find.
  destruct (list_find (λ r, pt_smirks r = sm_smirks p) h) as [[j cur]|] eqn:Ep.
  - rewrite (add_parameter_found _ _ _ _ _ _ j cur) by done.
    pose proof (list_find_key_lookup pt_smirks _ _ _ _ Ep) as [Hj Hcur].
    rewrite (list_find_key_insert pt_smirks h j cur)
      by (done || by rewrite record_of_smirks).
    destruct (list_find (λ r, pt_smirks r = s) h) as [[idx r]|] eqn:Es; simpl.
    + pose proof (list_find_key_lookup pt_smirks _ _ _ _ Es) as [Hidx Hr].
      destruct (decide (s = sm_smirks p)) as [->|Hne].
      * rewrite Ep in Es. simplify_eq. by rewrite decide_True.
      * assert (idx ≠ j) by (intros ->; simplify_eq; congruence).
        by rewrite decide_False.
    + destruct (decide (s = sm_smirks p)) as [->|Hne]; [congruence|done].
  - rewrite add_parameter_new by done.
    rewrite (list_find_key_snoc pt_smirks). rewrite record_of_smirks.
    destruct (list_find (λ r, pt_smirks r = s) h) as [[idx r]|] eqn:Es.
    + destruct (decide (s = sm_smirks p)) as [->|Hne]; [congruence|done].
    + repeat case_decide; done || congruence.
Qed.

(** A parameter that is settled is written back unchanged. *)
Lemma add_parameter_settled par t N h i p :
  settled par h p → add_parameter par t N h i p = h.
Proof.
  intros (idx & r & Hfind & Hr).
  rewrite (add_parameter_found _ _ _ _ _ _ idx r) by done.
  rewrite <- Hr. apply list_insert_id.
  by apply (list_find_key_lookup pt_smirks _ _ _ _ Hfind).
Qed.

Lemma add_parameter_settles par t N h i p :
  settled par (add_parameter par t N h i p) p.
Proof.
  unfold settled. rewrite add_parameter_find.
  destruct (ParameterList_find h (sm_smirks p)) as [[idx r]|];
    rewrite decide_True by done; eexists _, _; (split; [done|]);
    by rewrite record_of_class, record_of_id.
Qed.

Lemma add_parameter_keeps_settled par par' t N h i p q :
  sm_smirks q ≠ sm_smirks p → settled par' h q →
  settled par' (add_parameter par t N h i p) q.
Proof.
  intros Hne (idx & r & Hfind & Hr). exists idx, r.
  rewrite add_parameter_find, Hfind. by rewrite decide_False.
Qed.

Lemma add_parameters_keeps_settled par par' t N h i ps q :
  sm_smirks q ∉ sm_smirks <$> ps → settled par' h q →
  settled par' (add_parameters par t N h i ps) q.
Proof.
  revert h i. induction ps as [|p ps IH]; intros h i Hq Hs; [done|].
  rewrite fmap_cons in Hq. apply not_elem_of_cons in Hq as [??].
  simpl. apply IH; [done|]. by apply add_parameter_keeps_settled.
Qed.

Lemma add_parameters_settles par t N h i ps :
  NoDup (sm_smirks <$> ps) →
  Forall (settled par (add_parameters par t N h i ps)) ps.
Proof.
  revert h i. induction ps as [|p ps IH]; intros h i Hnd; [done|].
  rewrite fmap_cons in Hnd. apply NoDup_cons in Hnd as [Hp Hnd].
  simpl. apply Forall_cons. split; [|by apply IH].
  apply add_parameters_keeps_settled; [done|]. apply add_parameter_settles.
Qed.

Lemma add_parameters_settled par t N h i ps :
  Forall (settled par h) ps → add_parameters par t N h i ps = h.
Proof.
  revert i. induction ps as [|p ps IH]; intros i Hs; [done|].
  apply Forall_cons in Hs as [Hp Hs]. simpl.
  rewrite add_parameter_settled by done. by apply IH.
Qed.

(** ** Idempotence *)

(** C1. Calling [add_smirks] a second time with the same input sequence and
    the same [parameterize] flag leaves the force field as the first call
    left it: every handler is the same list of records, so no record is
    duplicated and no identifier changes. *)
Theorem add_smirks_idempotent (ff : ForceField) (smirks : list SmirksSchema)
    (parameterize : bool) :
  add_smirks (add_smirks ff smirks parameterize) smirks parameterize =
  add_smirks ff smirks parameterize.
Proof.
  apply ForceField_ext. intros t.
  rewrite (add_smirks_handler (add_smirks _ _ _)).
  apply add_parameters_settled.
  rewrite add_smirks_handler.
  apply add_parameters_settles, unique_params_NoDup.
Qed.

(** ** First-seen occurrences *)

Lemma list_find_snoc {A} (P : A → Prop) `{!∀ x, Decision (P x)} (l : list A) y :
  list_find P (l ++ [y]) =
  match list_find P l with
  | Some e => Some e
  | None => if decide (P y) then Some (length l, y) else None
  end.
Proof.
  destruct (list_find P l) as [[j w]|] eqn:E.
  - by apply list_find_app_l.
  - rewrite list_find_app_r by done. simpl. by case_decide.
Qed.

(** The parameter kept for a pattern is the first one of the input with the
    type and the pattern. *)
Lemma unique_params_first t smirks s :
  snd <$> list_find (λ q, sm_smirks q = s) (unique_params t smirks) =
  snd <$> list_find (λ q, sm_type q = t ∧ sm_smirks q = s) smirks.
Proof.
  induction smirks as [|x smirks IH] using rev_ind; [done|].
  rewrite unique_params_snoc, (list_find_snoc (λ q, _ ∧ _)).
  destruct (decide (t = sm_type x)) as [Ht|Ht].
  - destruct (smirk_in x (unique_params t smirks)) eqn:Hin.
    + rewrite IH. destruct (list_find _ smirks) as [[j w]|] eqn:E; [done|].
      case_decide as Hx; [|done]. exfalso.
      apply (smirk_in_typed t) in Hin; [|done|apply unique_params_type].
      destruct Hx as [_ <-].
      apply (list_find_key_None sm_smirks) in Hin; [done|].
      destruct (list_find _ (unique_params _ _)); [done|]. done.
    + rewrite (list_find_key_snoc sm_smirks).
      destruct (list_find _ (unique_params t smirks)) as [[j w]|];
        destruct (list_find _ smirks) as [[j' w']|]; simplify_eq/=; try done.
      repeat case_decide; naive_solver.
  - rewrite IH. destruct (list_find _ smirks) as [[j w]|]; [done|].
    rewrite decide_False; [done|]. intros [??]. done.
Qed.

(** ** Stable identifiers *)

Lemma add_parameters_find_found par t N h i ps s idx r :
  NoDup (sm_smirks <$> ps) →
  ParameterList_find h s = Some (idx, r) →
  ParameterList_find (add_parameters par t N h i ps) s =
  Some (idx, match list_find (λ p, sm_smirks p = s) ps with
             | Some e => record_of par e.2 (pt_class r) (pt_id r)
             | None => r
             end).
Proof.
  revert h i r. induction ps as [|p ps IH]; intros h i r Hnd Hfind; [done|].
  rewrite fmap_cons in Hnd. apply NoDup_cons in Hnd as [Hp Hnd].
  simpl add_parameters. rewrite (list_find_key_cons sm_smirks).
  erewrite IH; [|done|by rewrite add_parameter_find, Hfind].
  destruct (decide (s = sm_smirks p)) as [->|Hne].
  - rewrite decide_True by done.
    apply (list_find_key_None sm_smirks) in Hp. by rewrite Hp.
  - rewrite decide_False by done.
    by destruct (list_find _ ps) as [[j q]|].
Qed.

Lemma add_smirks_find_found ff smirks par t s idx r :
  ParameterList_find (get_parameter_handler ff t) s = Some (idx, r) →
  ParameterList_find (get_parameter_handler (add_smirks ff smirks par) t) s =
  Some (idx, match list_find (λ p, sm_smirks p = s) (unique_params t smirks) with
             | Some e => record_of par e.2 (pt_class r) (pt_id r)
             | None => r
             end).
Proof.
  intros Hfind. rewrite add_smirks_handler.
  apply add_parameters_find_found; [apply unique_params_NoDup|done].
Qed.

Lemma add_smirks_calls_find_found ff calls t s idx r :
  ParameterList_find (get_parameter_handler ff t) s = Some (idx, r) →
  ∃ r',
    ParameterList_find
      (get_parameter_handler (add_smirks_calls ff calls) t) s = Some (idx, r') ∧
    pt_id r' = pt_id r ∧ pt_class r' = pt_class r ∧ pt_smirks r' = s.
Proof.
  revert ff r. induction calls as [|[smirks par] calls IH]; intros ff r Hfind.
  - exists r. split_and!; try done.
    by apply (list_find_key_lookup pt_smirks _ _ _ _ Hfind).
  - apply (add_smirks_find_found _ smirks par) in Hfind.
    apply IH in Hfind as (r' & Hfind' & Hid & Hclass & Hs).
    exists r'. split_and!; try done.
    + rewrite Hid. destruct (list_find _ _) as [[??]|]; [|done].
      apply record_of_id.
    + rewrite Hclass. by destruct (list_find _ _) as [[??]|].
Qed.

(** C2. A record that the lookup by pattern finds in a handler keeps its
    position, its identifier, its class and its pattern through any sequence
    of calls of [add_smirks], whatever the batches; and a call whose input
    has a parameter with the type and the pattern leaves in its place the
    record re-initialised from the first such parameter of the input, with
    the identifier it had, so only the value fields change. *)
Theorem add_smirks_preserves_id (ff : ForceField) (t : SmirksType)
    (s : string) (idx : nat) (r : ParameterType) :
  ParameterList_find (get_parameter_handler ff t) s = Some (idx, r) →
  (∀ calls, ∃ r',
     ParameterList_find
       (get_parameter_handler (add_smirks_calls ff calls) t) s =
       Some (idx, r') ∧
     pt_id r' = pt_id r ∧ pt_class r' = pt_class r ∧ pt_smirks r' = s) ∧
  (∀ smirks parameterize p,
     p ∈ smirks → sm_type p = t → sm_smirks p = s →
     ∃ j q,
       list_find (λ q, sm_type q = t ∧ sm_smirks q = s) smirks = Some (j, q) ∧
       ParameterList_find
         (get_parameter_handler (add_smirks ff smirks parameterize) t) s =
       Some (idx, record_of parameterize q (pt_class r) (pt_id r))).
Proof.
  intros Hfind. split.
  - intros calls. by apply add_smirks_calls_find_found.
  - intros smirks par p Hp Ht Hs.
    destruct (list_find_elem_of (λ q, sm_type q = t ∧ sm_smirks q = s) smirks p)
      as [[j q] Hq]; [done..|].
    exists j, q. split; [done|].
    rewrite (add_smirks_find_found _ _ _ _ _ _ _ Hfind).
    pose proof (unique_params_first t smirks s) as Hfirst.
    rewrite Hq in Hfirst. simpl in Hfirst.
    destruct (list_find _ (unique_params t smirks)) as [[j' q']|];
      by simplify_eq/=.
Qed.

(** ** New parameters and their identifiers *)


Lemma ids_NoDup (prefix : string) (N k : nat) :
  NoDup ((λ j, prefix +:+ pretty (N + j)) <$> seq 2 k).
Proof.
  apply NoDup_fmap_2; [|apply NoDup_seq].
  intros j1 j2 Heq. apply (inj (String.app prefix)) in Heq.
  apply (inj pretty) in Heq. lia.
Qed.


(** ** The records under one key *)

Lemma add_parameter_filter par t N h i p s :
  filter (λ r, pt_smirks r = s) (add_parameter par t N h i p) =
  if decide (sm_smirks p = s)
  then match filter (λ r, pt_smirks r = s) h with
       | [] => [record_of par p t (_smirks_ids t +:+ pretty (N + i))]
       | r :: rest => record_of par p (pt_class r) (pt_id r) :: rest
       end
  else filter (λ r, pt_smirks r = s) h.
Proof.
  destruct (ParameterList_find h (sm_smirks p)) as [[j cur]|] eqn:Ep.
  - rewrite (add_parameter_found _ _ _ _ _ _ j cur) by done.
    pose proof (list_find_key_lookup pt_smirks _ _ _ _ Ep) as [Hj Hcur].
    case_decide as Hs.
    + subst s.
      rewrite (filter_key_insert_first pt_smirks h j cur)
        by (done || apply record_of_smirks).
      pose proof (head_filter_key pt_smirks h (sm_smirks p)) as Hhead.
      unfold ParameterList_find in Ep. rewrite Ep in Hhead.
      destruct (filter _ h) as [|r rest]; by simplify_eq/=.
    + apply (filter_key_insert_other pt_smirks h j cur); [done|congruence|].
      by rewrite record_of_smirks.
  - rewrite add_parameter_new by done.
    rewrite filter_app, filter_cons, filter_nil, record_of_smirks.
    case_decide as Hs.
    + subst s. apply (list_find_key_None pt_smirks) in Ep.
      by rewrite (filter_key_notin pt_smirks).
    + apply app_nil_r.
Qed.

Lemma add_parameters_filter par t N h i ps s :
  NoDup (sm_smirks <$> ps) →
  filter (λ r, pt_smirks r = s) (add_parameters par t N h i ps) =
  match list_find (λ p, sm_smirks p = s) ps with
  | None => filter (λ r, pt_smirks r = s) h
  | Some e =>
      match filter (λ r, pt_smirks r = s) h with
      | [] => [record_of par e.2 t (_smirks_ids t +:+ pretty (N + (i + e.1)))]
      | r :: rest => record_of par e.2 (pt_class r) (pt_id r) :: rest
      end
  end.
Proof.
  revert h i. induction ps as [|p ps IH]; intros h i Hnd; [done|].
  rewrite fmap_cons in Hnd. apply NoDup_cons in Hnd as [Hp Hnd].
  simpl add_parameters. rewrite IH by done.
  rewrite add_parameter_filter, (list_find_key_cons sm_smirks).
  case_decide as Hs.
  - subst s. apply (list_find_key_None sm_smirks) in Hp. rewrite Hp. simpl.
    by rewrite Nat.add_0_r.
  - destruct (list_find _ ps) as [[j q]|]; [|done]. simpl.
    destruct (filter _ h); [|done]. do 4 f_equal. lia.
Qed.

(** C4. For a parameter [p] of the input, whatever the number of parameters
    of the input that are equal to it (same type, same pattern): the
    deduplicated list of its type keeps exactly one parameter with the
    pattern, the first of the input that is equal to [p]; and after the call
    the records of the handler under the pattern are those from before the
    call with only the first one rewritten from that parameter, or the one
    new record written from it when there was none. *)
Theorem add_smirks_deduplicates (ff : ForceField) (smirks : list SmirksSchema)
    (parameterize : bool) (p : SmirksSchema) :
  p ∈ smirks →
  ∃ j q j',
    list_find (λ x, smirks_eq x p) smirks = Some (j, q) ∧
    filter (λ x, sm_smirks x = sm_smirks p) (unique_params (sm_type p) smirks)
      = [q] ∧
    unique_params (sm_type p) smirks !! j' = Some q ∧
    filter (λ r, pt_smirks r = sm_smirks p)
      (get_parameter_handler (add_smirks ff smirks parameterize) (sm_type p)) =
    match filter (λ r, pt_smirks r = sm_smirks p)
            (get_parameter_handler ff (sm_type p)) with
    | [] =>
        [record_of parameterize q (sm_type p)
           (_smirks_ids (sm_type p) +:+
            pretty (length (get_parameter_handler ff (sm_type p)) + (2 + j')))]
    | r :: rest => record_of parameterize q (pt_class r) (pt_id r) :: rest
    end.
Proof.
  intros Hp.
  destruct (list_find_elem_of (λ x, smirks_eq x p) smirks p)
    as [[j q] Hq]; [done|by split|].
  pose proof (unique_params_first (sm_type p) smirks (sm_smirks p)) as Hfirst.
  rewrite (list_find_ext (λ x, sm_type x = sm_type p ∧ sm_smirks x = sm_smirks p)
             (λ x, smirks_eq x p)) in Hfirst by (intros x; reflexivity).
  rewrite Hq in Hfirst.
  destruct (list_find (λ x, sm_smirks x = sm_smirks p)
              (unique_params (sm_type p) smirks)) as [[j' q']|] eqn:Eu;
    simplify_eq/=.
  exists j, q, j'. split_and!; [done| | |].
  - rewrite (filter_key_NoDup sm_smirks) by apply unique_params_NoDup.
    by rewrite Eu.
  - by apply (list_find_key_lookup sm_smirks _ _ _ _ Eu).
  - rewrite add_smirks_handler.
    rewrite add_parameters_filter by apply unique_params_NoDup.
    by rewrite Eu.
Qed.

(** ** Patterns and identifiers of a handler through the loop *)

Lemma unique_params_elem_of t smirks p :
  p ∈ unique_params t smirks → p ∈ smirks ∧ sm_type p = t.
Proof.
  intros Hp. split.
  - eapply elem_of_sublist; [done|apply unique_params_sublist].
  - pose proof (unique_params_type t smirks) as Hty.
    rewrite Forall_forall in Hty. by apply Hty.
Qed.


Lemma add_parameter_keys par t N h i p :
  pt_smirks <$> add_parameter par t N h i p =
  if decide (sm_smirks p ∈ pt_smirks <$> h)
  then pt_smirks <$> h
  else (pt_smirks <$> h) ++ [sm_smirks p].
Proof.
  destruct (ParameterList_find h (sm_smirks p)) as [[idx cur]|] eqn:Ep.
  - rewrite (add_parameter_found _ _ _ _ _ _ idx cur) by done.
    pose proof (list_find_key_lookup pt_smirks _ _ _ _ Ep) as [Hidx Hcur].
    rewrite decide_True.
    + rewrite list_fmap_insert, record_of_smirks.
      apply list_insert_id. by rewrite list_lookup_fmap, Hidx, <- Hcur.
    + rewrite <- Hcur. by eapply list_elem_of_fmap_2, list_elem_of_lookup_2.
  - rewrite add_parameter_new by done.
    apply (list_find_key_None pt_smirks) in Ep.
    rewrite decide_False by done.
    by rewrite fmap_app, list_fmap_singleton, record_of_smirks.
Qed.

Lemma filter_not_elem_snoc (ks l : list string) (s0 : string) :
  s0 ∉ l → filter (λ s, s ∉ ks ++ [s0]) l = filter (λ s, s ∉ ks) l.
Proof.
  induction l as [|q l IH]; [done|].
  intros [Hq Hl]%not_elem_of_cons. rewrite !filter_cons, IH by done.
  destruct (decide (q ∈ ks)) as [Hin|Hin].
  - rewrite !decide_False; [done|by intros Hn; apply Hn|].
    intros Hn. apply Hn, elem_of_app. by left.
  - rewrite !decide_True; [done|done|].
    intros [?|?%list_elem_of_singleton]%elem_of_app; [done|congruence].
Qed.

Lemma add_parameters_keys par t N h i ps :
  NoDup (sm_smirks <$> ps) →
  pt_smirks <$> add_parameters par t N h i ps =
  (pt_smirks <$> h) ++
  filter (λ s, s ∉ pt_smirks <$> h) (sm_smirks <$> ps).
Proof.
  revert h i. induction ps as [|p ps IH]; intros h i Hnd.
  - by rewrite app_nil_r.
  - rewrite fmap_cons in Hnd. apply NoDup_cons in Hnd as [Hp Hnd].
    simpl add_parameters. rewrite IH by done.
    rewrite add_parameter_keys, fmap_cons, filter_cons.
    destruct (decide (sm_smirks p ∈ pt_smirks <$> h)) as [Hin|Hin].
    + by rewrite decide_False by (intros Hn; by apply Hn).
    + rewrite decide_True by done. rewrite <- app_assoc. f_equal. simpl.
      f_equal. by apply filter_not_elem_snoc.
Qed.

Lemma add_parameter_ids par t N h i p :
  pt_id <$> add_parameter par t N h i p = pt_id <$> h ∨
  pt_id <$> add_parameter par t N h i p =
  (pt_id <$> h) ++ [_smirks_ids t +:+ pretty (N + i)].
Proof.
  destruct (ParameterList_find h (sm_smirks p)) as [[idx cur]|] eqn:Ep.
  - left. rewrite (add_parameter_found _ _ _ _ _ _ idx cur) by done.
    pose proof (list_find_key_lookup pt_smirks _ _ _ _ Ep) as [Hidx Hcur].
    rewrite list_fmap_insert, record_of_id.
    apply list_insert_id. by rewrite list_lookup_fmap, Hidx.
  - right. rewrite add_parameter_new by done.
    by rewrite fmap_app, list_fmap_singleton, record_of_id.
Qed.

Lemma add_parameters_ids par t N h i ps :
  ∃ new,
    pt_id <$> add_parameters par t N h i ps = (pt_id <$> h) ++ new ∧
    new `sublist_of`
      ((λ n, _smirks_ids t +:+ pretty (N + n)) <$> seq i (length ps)).
Proof.
  revert h i. induction ps as [|p ps IH]; intros h i.
  - exists []. by rewrite app_nil_r.
  - simpl add_parameters.
    destruct (IH (add_parameter par t N h i p) (S i)) as (new & Hids & Hsub).
    cbn [length seq]. rewrite fmap_cons.
    destruct (add_parameter_ids par t N h i p) as [Hstep|Hstep];
      rewrite Hstep in Hids.
    + exists new. split; [done|]. by apply sublist_cons.
    + exists ((_smirks_ids t +:+ pretty (N + i)) :: new).
      rewrite <- app_assoc in Hids. split; [done|]. by apply sublist_skip.
Qed.

Lemma candidate_ids_NoDup (prefix : string) (N i k : nat) :
  NoDup ((λ n, prefix +:+ pretty (N + n)) <$> seq i k).
Proof.
  apply NoDup_fmap_2; [|apply NoDup_seq].
  intros j1 j2 Heq. apply (inj (String.app prefix)) in Heq.
  apply (inj pretty) in Heq. lia.
Qed.



(** ** The workflow stage *)

Section workflow_properties.
Context {ndarray : Type}.
Implicit Types (self : WorkflowStage ndarray) (rs : list (SingleResult ndarray)).

Lemma get_result_geometries_loop_map geometries rs :
  get_result_geometries_loop geometries rs =
  geometries ++ ((λ r, mkQuantity (geometry (molecule r)) bohr) <$> rs).
Proof.
  revert geometries. induction rs as [|r rs IH]; intros geometries; simpl.
  - by rewrite app_nil_r.
  - rewrite IH. by rewrite <- app_assoc.
Qed.

(** C8. [get_result_geometries] raises when [result] is unset; when
    [result] holds [n] records it returns exactly [n] quantities, the one
    at position [i] being the raw geometry of the record at position [i]
    tagged with the length unit [bohr].  The method assigns to no field of
    the stage, so the embedding returns no new state for it. *)
Theorem get_result_geometries_spec self :
  match result self with
  | None => get_result_geometries self = raise TypeError
  | Some rs =>
      ∃ geometries,
        get_result_geometries self = ret geometries ∧
        geometries = (λ r, mkQuantity (geometry (molecule r)) bohr) <$> rs ∧
        length geometries = length rs ∧
        ∀ i r, rs !! i = Some r →
               geometries !! i = Some (mkQuantity (geometry (molecule r)) bohr)
  end.
Proof.
  unfold get_result_geometries. destruct (result self) as [rs|]; [|done].
  eexists. split; [done|]. rewrite get_result_geometries_loop_map. simpl.
  split_and!; [done|by rewrite length_fmap|].
  intros i r Hi. by rewrite list_lookup_fmap, Hi.
Qed.

(** C9, as the code has it. The class declares the counter under the name
    [retires]: a new stage has no attribute [retries], and its attribute
    [retires] is the integer 0. *)
Theorem WorkflowStage_retries_misspelt (m : CollectionMethod) (p : Precedence) :
  WorkflowStage_getattr (WorkflowStage_init ndarray m p) "retries" =
    raise AttributeError ∧
  WorkflowStage_getattr (WorkflowStage_init ndarray m p) "retires" =
    ret (AInt ndarray 0%Z).
Proof. done. Qed.
End workflow_properties.

(** ** Queries of the editor *)

(** Overwriting twice from the same record is overwriting once. *)
Lemma update_parameters_twice default_values p r c :
  update_parameters default_values (update_parameters default_values p r c) r c
  = update_parameters default_values p r c.
Proof.
  unfold update_parameters. simpl. f_equal.
  destruct c; [done|]. by rewrite (assoc_L (∪)), (idemp_L (∪)).
Qed.

Section editor_properties.
Context (Molecule : Type) (label_molecules : ForceField → Molecule → Labels).
Context (default_values : SmirksType → gmap string string).
Context (clear_existing_default : bool).

Local Abbreviation update_parameters := (update_parameters default_values).
Local Abbreviation get_initial_parameters :=
  (get_initial_parameters Molecule label_molecules default_values).
Local Abbreviation get_smirks_parameters :=
  (get_smirks_parameters Molecule label_molecules).
Local Abbreviation label_molecule := (label_molecule Molecule label_molecules).

Lemma handler_record_update self p r c :
  handler_record self (update_parameters p r c) = handler_record self p.
Proof. done. Qed.

Lemma updated_object_twice self p :
  updated_object default_values clear_existing_default self
    (updated_object default_values clear_existing_default self p) =
  updated_object default_values clear_existing_default self p.
Proof.
  unfold updated_object. destruct (handler_record self p) as [r|] eqn:E.
  - by rewrite handler_record_update, E, update_parameters_twice.
  - by rewrite E.
Qed.



(** The whole run of the loop: the objects referred to before the first
    reference whose lookup fails are overwritten, the others are as they
    were. *)
Lemma update_smirks_parameters_run {n} self (smirks : list (fin n)) :
  ∀ store : vec SmirksSchema n,
    match list_find (λ ref, handler_record self (store !!! ref) = None)
            smirks with
    | Some e =>
        (update_smirks_parameters default_values clear_existing_default self
           store smirks).2 = raise KeyError ∧
        ∀ o, (update_smirks_parameters default_values clear_existing_default
                self store smirks).1 !!! o =
             if decide (o ∈ take e.1 smirks)
             then updated_object default_values clear_existing_default self
                    (store !!! o)
             else store !!! o
    | None =>
        (update_smirks_parameters default_values clear_existing_default self
           store smirks).2 = ret () ∧
        ∀ o, (update_smirks_parameters default_values clear_existing_default
                self store smirks).1 !!! o =
             if decide (o ∈ smirks)
             then updated_object default_values clear_existing_default self
                    (store !!! o)
             else store !!! o
    end.
Proof.
  clear Molecule label_molecules.
  induction smirks as [|a rest IH]; intros store.
  - cbn [update_smirks_parameters list_find fst snd]. split; [done|].
    intros o. case_decide as Ho; [by apply elem_of_nil in Ho|done].
  - cbn [update_smirks_parameters list_find].
    destruct (handler_record self (store !!! a)) as [r|] eqn:Ea.
    + rewrite decide_False by done.
      set (store1 := vinsert a (update_parameters (store !!! a) r
                                  clear_existing_default) store).
      assert (∀ o, store1 !!! o =
                   if decide (o = a)
                   then updated_object default_values clear_existing_default
                          self (store !!! a)
                   else store !!! o) as Hstore1.
      { intros o. unfold store1. case_decide as Ho.
        - subst o. rewrite vlookup_insert. unfold updated_object.
          by rewrite Ea.
        - by rewrite vlookup_insert_ne. }
      assert (∀ o, updated_object default_values clear_existing_default self
                     (store1 !!! o) =
                   updated_object default_values clear_existing_default self
                     (store !!! o)) as Hupd.
      { intros o. rewrite Hstore1. case_decide as Ho; [|done].
        subst o. apply updated_object_twice. }
      assert (list_find (λ ref, handler_record self (store1 !!! ref) = None)
                rest =
              list_find (λ ref, handler_record self (store !!! ref) = None)
                rest) as Hfind.
      { apply list_find_ext. intros ref. rewrite Hstore1.
        case_decide as Ho; [|done]. subst ref. unfold updated_object.
        by rewrite Ea, handler_record_update, Ea. }
      specialize (IH store1). rewrite Hfind in IH.
      destruct (list_find _ rest) as [[i x]|]; simpl in IH |- *.
      * destruct IH as [Hout Hobj]. split; [done|]. intros o.
        rewrite Hobj, Hupd, Hstore1.
        destruct (decide (o = a)) as [->|Ho].
        -- rewrite (decide_True (P := a ∈ a :: take i rest)) by by left.
           by case_decide.
        -- apply decide_ext. rewrite elem_of_cons. naive_solver.
      * destruct IH as [Hout Hobj]. split; [done|]. intros o.
        rewrite Hobj, Hupd, Hstore1.
        destruct (decide (o = a)) as [->|Ho].
        -- rewrite (decide_True (P := a ∈ a :: rest)) by by left.
           by case_decide.
        -- apply decide_ext. rewrite elem_of_cons. naive_solver.
    + rewrite decide_True by done. cbn [fst snd take]. split; [done|].
      intros o. case_decide as Ho; [by apply elem_of_nil in Ho|done].
Qed.




(** *** [get_initial_parameters] *)

Lemma resolve_atoms_ok (parameters : list nat → option ParameterType) l :
  (∀ a, a ∈ l → is_Some (parameters a)) →
  ∃ rs, resolve_atoms parameters l = ret rs ∧
        Forall2 (λ a r, parameters a = Some r) l rs.
Proof.
  induction l as [|a l IH]; intros Hl.
  - exists []. by split.
  - destruct (Hl a) as [r Hr]; [by left|].
    destruct IH as (rs & Hrs & Hall); [intros; apply Hl; by right|].
    exists (r :: rs). simpl. rewrite Hr, Hrs. split; [done|]. by constructor.
Qed.

Lemma resolve_atoms_fail (parameters : list nat → option ParameterType) l a :
  a ∈ l → parameters a = None → resolve_atoms parameters l = raise KeyError.
Proof.
  induction 1 as [a l|a b l Hin IH]; intros Ha; simpl.
  - by rewrite Ha.
  - destruct (parameters b); [|done]. simpl. by rewrite IH.
Qed.

Lemma size_list_to_set_1 (l : list string) :
  size (list_to_set l : gset string) = 1 ↔
  l ≠ [] ∧ ∀ x y, x ∈ l → y ∈ l → x = y.
Proof.
  split.
  - intros Hsize. split.
    + intros ->. by rewrite list_to_set_nil, size_empty in Hsize.
    + apply size_1_elem_of in Hsize as [z Hz]. intros x y Hx Hy.
      assert (x ∈ (list_to_set l : gset string)) as Hx' by set_solver.
      assert (y ∈ (list_to_set l : gset string)) as Hy' by set_solver.
      rewrite Hz in Hx', Hy'. set_solver.
  - intros [Hne Hall]. destruct l as [|x l]; [done|].
    assert ((list_to_set (x :: l) : gset string) = {[x]}) as ->.
    { apply set_eq. intros y. rewrite elem_of_list_to_set, elem_of_singleton.
      split; [|intros ->; by left]. intros Hy. apply Hall; [done|by left]. }
    apply size_singleton.
Qed.

Lemma get_initial_parameters_empty self molecule smirk clear_existing :
  sm_atoms smirk = ∅ →
  get_initial_parameters self molecule smirk clear_existing =
  raise AssertionError.
Proof.
  intros Hempty. unfold get_initial_parameters.
  rewrite Hempty, elements_empty. simpl. by rewrite decide_False.
Qed.

(** What the call does once every tuple of [smirk.atoms] has a label. *)
Lemma get_initial_parameters_resolved self molecule smirk clear_existing :
  (∀ a, a ∈ sm_atoms smirk →
        is_Some (label_molecule self molecule (sm_type smirk) a)) →
  ∃ rs,
    Forall2 (λ a r, label_molecule self molecule (sm_type smirk) a = Some r)
      (elements (sm_atoms smirk)) rs ∧
    get_initial_parameters self molecule smirk clear_existing =
    if decide (size (list_to_set (pt_id <$> rs) : gset string) = 1)
    then match rs with
         | r :: _ => ret (update_parameters smirk r clear_existing)
         | [] => raise IndexError
         end
    else raise AssertionError.
Proof.
  intros Hall.
  destruct (resolve_atoms_ok (label_molecule self molecule (sm_type smirk))
              (elements (sm_atoms smirk))) as (rs & Hrs & HF).
  { intros a Ha. apply Hall. by apply elem_of_elements. }
  exists rs. split; [done|].
  unfold get_initial_parameters. by rewrite Hrs.
Qed.

(** C10. A parameter with no atoms always fails the assertion: the set of
    resolved identifiers is empty and its size is not 1. *)
Theorem get_initial_parameters_no_atoms (self : ForceField)
    (molecule : Molecule) (smirk : SmirksSchema) (clear_existing : bool) :
  sm_atoms smirk = ∅ →
  get_initial_parameters self molecule smirk clear_existing =
  raise AssertionError.
Proof. apply get_initial_parameters_empty. Qed.

(** C6, amended. A tuple of [smirk.atoms] without a label makes the call
    fail with the lookup failure.  When every tuple has a label: the call
    fails the assertion when the atoms are empty and when two tuples
    resolve to records with different identifiers; when the atoms are not
    empty and all resolve to one identifier, the call returns [smirk]
    with its value fields updated from the record of one of its tuples
    (cleared first under [clear_existing]) and its type, pattern and atoms
    unchanged. *)
Theorem get_initial_parameters_spec (self : ForceField) (molecule : Molecule)
    (smirk : SmirksSchema) (clear_existing : bool) :
  (∀ a, a ∈ sm_atoms smirk →
        label_molecule self molecule (sm_type smirk) a = None →
        get_initial_parameters self molecule smirk clear_existing =
        raise KeyError) ∧
  ((∀ a, a ∈ sm_atoms smirk →
         is_Some (label_molecule self molecule (sm_type smirk) a)) →
   (sm_atoms smirk = ∅ →
    get_initial_parameters self molecule smirk clear_existing =
    raise AssertionError) ∧
   (∀ a1 a2 r1 r2,
      a1 ∈ sm_atoms smirk → a2 ∈ sm_atoms smirk →
      label_molecule self molecule (sm_type smirk) a1 = Some r1 →
      label_molecule self molecule (sm_type smirk) a2 = Some r2 →
      pt_id r1 ≠ pt_id r2 →
      get_initial_parameters self molecule smirk clear_existing =
      raise AssertionError) ∧
   (sm_atoms smirk ≠ ∅ →
    (∀ a1 a2 r1 r2,
       a1 ∈ sm_atoms smirk → a2 ∈ sm_atoms smirk →
       label_molecule self molecule (sm_type smirk) a1 = Some r1 →
       label_molecule self molecule (sm_type smirk) a2 = Some r2 →
       pt_id r1 = pt_id r2) →
    ∃ a r smirk',
      a ∈ sm_atoms smirk ∧
      label_molecule self molecule (sm_type smirk) a = Some r ∧
      get_initial_parameters self molecule smirk clear_existing =
      ret smirk' ∧
      smirk' = update_parameters smirk r clear_existing ∧
      sm_type smirk' = sm_type smirk ∧ sm_smirks smirk' = sm_smirks smirk ∧
      sm_atoms smirk' = sm_atoms smirk)).
Proof.
  split.
  { intros a Ha Hnone. unfold get_initial_parameters.
    rewrite (resolve_atoms_fail _ _ a); [done| |done].
    by apply elem_of_elements. }
  intros Hall.
  destruct (get_initial_parameters_resolved self molecule smirk clear_existing
              Hall) as (rs & HF & ->).
  assert (∀ r, r ∈ rs → ∃ a, a ∈ sm_atoms smirk ∧
            label_molecule self molecule (sm_type smirk) a = Some r) as Hrs.
  { intros r Hr. apply list_elem_of_lookup in Hr as [i Hi].
    destruct (Forall2_lookup_r _ _ _ _ _ HF Hi) as (a & Ha & Hlab).
    exists a. split; [|done].
    apply elem_of_elements, list_elem_of_lookup. eauto. }
  assert (∀ a r, a ∈ sm_atoms smirk →
            label_molecule self molecule (sm_type smirk) a = Some r →
            r ∈ rs) as Hin.
  { intros a r Ha Hlab.
    apply elem_of_elements, list_elem_of_lookup in Ha as [i Hi].
    destruct (Forall2_lookup_l _ _ _ _ _ HF Hi) as (r' & Hr' & Hlab').
    rewrite Hlab in Hlab'. simplify_eq. apply list_elem_of_lookup. eauto. }
  split_and!.
  - intros Hempty. rewrite decide_False; [done|].
    rewrite size_list_to_set_1. intros [Hne _]. apply Hne.
    rewrite Hempty, elements_empty in HF. by apply Forall2_nil_inv_l in HF as ->.
  - intros a1 a2 r1 r2 Ha1 Ha2 Hr1 Hr2 Hne.
    rewrite decide_False; [done|]. rewrite size_list_to_set_1.
    intros [_ Hsame]. apply Hne, Hsame; apply list_elem_of_fmap_2; eauto.
  - intros Hne Hsame. rewrite decide_True.
    + destruct rs as [|r rs].
      { apply Forall2_nil_inv_r in HF. apply elements_empty_inv in HF.
        destruct Hne. by apply leibniz_equiv. }
      destruct (Hrs r) as (a & Ha & Hlab); [by left|].
      exists a, r, (update_parameters smirk r clear_existing). by split_and!.
    + apply size_list_to_set_1. split.
      * intros Hnil. apply fmap_nil_inv in Hnil. subst rs.
        apply Forall2_nil_inv_r in HF. apply elements_empty_inv in HF.
        destruct Hne. by apply leibniz_equiv.
      * intros x y (r1 & -> & Hr1)%list_elem_of_fmap (r2 & -> & Hr2)%list_elem_of_fmap.
        destruct (Hrs r1 Hr1) as (a1 & ? & ?).
        destruct (Hrs r2 Hr2) as (a2 & ? & ?). eauto.
Qed.

(** *** [get_smirks_parameters] *)

Lemma get_smirks_parameters_step_governed labels acc a r :
  governing labels a = Some r →
  get_smirks_parameters_step labels acc a =
  ret (match list_find (λ x, smirks_key x = record_key r) acc with
       | Some e => <[e.1 := atoms_add e.2 a]> acc
       | None => acc ++ [atoms_add (smirks_from_off r) a]
       end).
Proof.
  unfold governing, get_smirks_parameters_step.
  destruct (_atoms_to_params (length a)) as [t|]; [|done]. simpl.
  intros ->. simpl.
  rewrite (list_find_ext _ (λ x, smirks_key x = record_key r)).
  - by destruct (list_find _ acc) as [[??]|].
  - intros x. unfold smirks_eq, smirks_key, record_key. simpl.
    split; [intros [??]; by f_equal|intros [=]; by split].
Qed.

Lemma get_smirks_parameters_step_ungoverned labels acc a :
  governing labels a = None →
  get_smirks_parameters_step labels acc a = raise KeyError.
Proof.
  unfold governing, get_smirks_parameters_step.
  destruct (_atoms_to_params (length a)) as [t|]; [|done]. simpl.
  by intros ->.
Qed.

Lemma smirks_key_atoms_add p a : smirks_key (atoms_add p a) = smirks_key p.
Proof. done. Qed.

Lemma smirks_key_from_off r a :
  smirks_key (atoms_add (smirks_from_off r) a) = record_key r.
Proof. done. Qed.

(** The keys of the list after one iteration. *)
Lemma step_keys acc a r :
  smirks_key <$>
    match list_find (λ x, smirks_key x = record_key r) acc with
    | Some e => <[e.1 := atoms_add e.2 a]> acc
    | None => acc ++ [atoms_add (smirks_from_off r) a]
    end =
  if decide (record_key r ∈ smirks_key <$> acc)
  then smirks_key <$> acc
  else (smirks_key <$> acc) ++ [record_key r].
Proof.
  destruct (list_find _ acc) as [[idx found]|] eqn:E.
  - pose proof (list_find_key_lookup smirks_key _ _ _ _ E) as [Hidx Hkey].
    rewrite decide_True.
    + simpl. rewrite list_fmap_insert, smirks_key_atoms_add.
      apply list_insert_id. by rewrite list_lookup_fmap, Hidx.
    + rewrite <- Hkey. by eapply list_elem_of_fmap_2, list_elem_of_lookup_2.
  - apply (list_find_key_None smirks_key) in E.
    rewrite decide_False by done. by rewrite fmap_app.
Qed.

Lemma get_smirks_parameters_loop_keys labels atoms acc rs :
  Forall2 (λ a r, governing labels a = Some r) atoms rs →
  ∃ res,
    get_smirks_parameters_loop labels acc atoms = ret res ∧
    smirks_key <$> res =
    (smirks_key <$> acc) ++
    first_encounters (smirks_key <$> acc) (record_key <$> rs).
Proof.
  intros HF. revert acc.
  induction HF as [|a r atoms rs Hr HF IH]; intros acc.
  - exists acc. split; [done|]. simpl. by rewrite app_nil_r.
  - cbn [get_smirks_parameters_loop].
    rewrite (get_smirks_parameters_step_governed _ _ _ r) by done.
    cbn [bind ret].
    edestruct IH as (res & -> & Hkeys). exists res. split; [done|].
    rewrite Hkeys, step_keys. rewrite fmap_cons. cbn [first_encounters].
    case_decide; [done|]. by rewrite <- app_assoc.
Qed.

Lemma first_encounters_NoDup seen l :
  NoDup seen → NoDup (seen ++ first_encounters seen l).
Proof.
  revert seen. induction l as [|k l IH]; intros seen Hseen; simpl.
  - by rewrite app_nil_r.
  - case_decide as Hk; [by apply IH|].
    rewrite cons_middle, (assoc_L (++)). apply IH.
    apply NoDup_app. split_and!; [done| |apply NoDup_singleton].
    intros x Hx ->%list_elem_of_singleton. done.
Qed.

(** The atoms under each key, through the loop. *)
Lemma step_atoms_of_key acc a r k :
  atoms_of_key
    match list_find (λ x, smirks_key x = record_key r) acc with
    | Some e => <[e.1 := atoms_add e.2 a]> acc
    | None => acc ++ [atoms_add (smirks_from_off r) a]
    end k =
  (if decide (record_key r = k) then {[a]} else ∅) ∪ atoms_of_key acc k.
Proof.
  unfold atoms_of_key.
  destruct (list_find (λ x, smirks_key x = record_key r) acc)
    as [[idx found]|] eqn:E.
  - pose proof (list_find_key_lookup smirks_key _ _ _ _ E) as [Hidx Hkey].
    simpl. rewrite (list_find_key_insert smirks_key acc idx found) by done.
    destruct (decide (record_key r = k)) as [<-|Hne].
    + rewrite E. simpl. by rewrite decide_True.
    + destruct (list_find (λ x, smirks_key x = k) acc) as [[j q]|] eqn:Ek;
        simpl; [|set_solver].
      pose proof (list_find_key_lookup smirks_key _ _ _ _ Ek) as [Hj Hq].
      rewrite decide_False; [set_solver|].
      intros ->. by simplify_eq.
  - rewrite (list_find_key_snoc smirks_key), smirks_key_from_off.
    destruct (list_find (λ x, smirks_key x = k) acc) as [[j q]|] eqn:Ek.
    + rewrite decide_False; [set_solver|].
      intros <-. congruence.
    + case_decide; simpl; set_solver.
Qed.

Lemma atoms_for_cons labels k a atoms r :
  governing labels a = Some r →
  atoms_for labels k (a :: atoms) =
  (if decide (record_key r = k) then {[a]} else ∅) ∪ atoms_for labels k atoms.
Proof.
  intros Hr. unfold atoms_for. rewrite filter_cons, Hr. simpl.
  destruct (decide (record_key r = k)) as [->|Hne].
  - by rewrite decide_True.
  - rewrite decide_False by congruence. set_solver.
Qed.

Lemma get_smirks_parameters_loop_atoms labels atoms acc res :
  get_smirks_parameters_loop labels acc atoms = ret res →
  ∀ k, atoms_of_key res k = atoms_for labels k atoms ∪ atoms_of_key acc k.
Proof.
  revert acc. induction atoms as [|a atoms IH]; intros acc Hloop k.
  - simpl in Hloop. unfold ret in Hloop. simplify_eq.
    unfold atoms_for. simpl. set_solver.
  - cbn [get_smirks_parameters_loop] in Hloop.
    destruct (governing labels a) as [r|] eqn:Hr.
    + rewrite (get_smirks_parameters_step_governed _ _ _ r) in Hloop by done.
      cbn [bind ret] in Hloop. rewrite (IH _ Hloop k), step_atoms_of_key.
      rewrite (atoms_for_cons _ _ _ _ r) by done. set_solver.
    + by rewrite get_smirks_parameters_step_ungoverned in Hloop.
Qed.

Lemma first_encounters_seen seen k n :
  k ∈ seen → first_encounters seen (replicate n k) = [].
Proof.
  intros Hk. induction n as [|n IH]; [done|].
  cbn [replicate first_encounters]. by rewrite decide_True.
Qed.

Lemma first_encounters_replicate k n :
  first_encounters [] (replicate (S n) k) = [k].
Proof.
  cbn [replicate first_encounters].
  rewrite decide_False by apply not_elem_of_nil.
  rewrite first_encounters_seen; [done|]. by left.
Qed.

Lemma list_find_key_self {A K} `{EqDecision K} (f : A → K) (l : list A) x :
  NoDup (f <$> l) → x ∈ l →
  ∃ i, list_find (λ y, f y = f x) l = Some (i, x).
Proof.
  induction l as [|z l IH]; intros Hnd Hx; [by apply elem_of_nil in Hx|].
  rewrite fmap_cons in Hnd. apply NoDup_cons in Hnd as [Hz Hnd].
  rewrite (list_find_key_cons f).
  apply elem_of_cons in Hx as [->|Hx].
  - exists 0. by rewrite decide_True.
  - rewrite decide_False.
    + destruct (IH Hnd Hx) as [i ->]. by exists (S i).
    + intros Hfz. apply Hz. rewrite Hfz. by apply list_elem_of_fmap_2.
Qed.

Lemma filter_all {A} (P : A → Prop) `{!∀ x, Decision (P x)} (l : list A) :
  Forall P l → filter P l = l.
Proof.
  induction 1 as [|x l Hx Hl IH]; [done|].
  by rewrite filter_cons, decide_True, IH.
Qed.

(** The whole result of the query, when every requested tuple has a
    governing record. *)
Lemma get_smirks_parameters_governed self molecule atoms rs :
  Forall2 (λ a r, governing (label_molecule self molecule) a = Some r)
    atoms rs →
  ∃ res,
    get_smirks_parameters self molecule atoms = ret res ∧
    smirks_key <$> res = first_encounters [] (record_key <$> rs) ∧
    NoDup (smirks_key <$> res) ∧
    ∀ p, p ∈ res →
         sm_atoms p =
         atoms_for (label_molecule self molecule) (smirks_key p) atoms.
Proof.
  intros HF. unfold get_smirks_parameters.
  destruct (get_smirks_parameters_loop_keys _ _ [] _ HF) as (res & Hres & Hkeys).
  exists res. simpl in Hkeys.
  assert (NoDup (smirks_key <$> res)) as Hnd.
  { rewrite Hkeys. apply (first_encounters_NoDup []), NoDup_nil_2. }
  split_and!; [done..|].
  intros p Hp.
  pose proof (get_smirks_parameters_loop_atoms _ _ _ _ Hres (smirks_key p))
    as Hatoms.
  unfold atoms_of_key at 1 2 in Hatoms. simpl in Hatoms.
  destruct (list_find_key_self smirks_key res p Hnd Hp) as [i Hi].
  rewrite Hi in Hatoms. simpl in Hatoms. rewrite Hatoms. set_solver.
Qed.

(** C5, amended. When every requested tuple has a governing record, the
    query returns one typed parameter per (type, pattern) of those
    records, in the order of first encounter and without two equal ones,
    each with the requested tuples that its pattern governs as its atoms.
    When the sequence is not empty and all its tuples resolve to the same
    record, the result is exactly one parameter, with the type and the
    pattern of the record, whose atoms are the set of the requested
    tuples; that set has [m] elements when the [m] tuples are pairwise
    distinct. *)
Theorem get_smirks_parameters_clusters (self : ForceField)
    (molecule : Molecule) (atoms : list (list nat)) :
  (∀ rs,
     Forall2 (λ a r, governing (label_molecule self molecule) a = Some r)
       atoms rs →
     ∃ res,
       get_smirks_parameters self molecule atoms = ret res ∧
       smirks_key <$> res = first_encounters [] (record_key <$> rs) ∧
       NoDup (smirks_key <$> res) ∧
       ∀ p, p ∈ res →
            sm_atoms p =
            atoms_for (label_molecule self molecule) (smirks_key p) atoms) ∧
  (∀ r,
     atoms ≠ [] →
     (∀ a, a ∈ atoms → governing (label_molecule self molecule) a = Some r) →
     ∃ p,
       get_smirks_parameters self molecule atoms = ret [p] ∧
       sm_type p = pt_class r ∧ sm_smirks p = pt_smirks r ∧
       sm_atoms p = list_to_set atoms ∧
       (NoDup atoms → size (sm_atoms p) = length atoms)).
Proof.
  split; [apply get_smirks_parameters_governed|].
  intros r Hne Hall.
  destruct (get_smirks_parameters_governed self molecule atoms
              (replicate (length atoms) r))
    as (res & Hres & Hkeys & _ & Hatoms).
  { apply Forall2_replicate_r; [done|]. apply Forall_forall. intros a Ha.
    by apply Hall. }
  rewrite fmap_replicate in Hkeys.
  destruct atoms as [|a atoms]; [done|].
  cbn [length] in Hkeys. rewrite first_encounters_replicate in Hkeys.
  destruct res as [|p [|p' res]]; try (by simplify_eq/=).
  exists p. injection Hkeys as Ht Hs.
  assert (sm_atoms p = list_to_set (a :: atoms)) as Hset.
  { rewrite (Hatoms p) by by left. unfold atoms_for.
    rewrite filter_all; [done|]. apply Forall_forall. intros b Hb.
    rewrite (Hall b Hb). unfold smirks_key, record_key. simpl.
    by rewrite Ht, Hs. }
  split_and!; [done..|].
  intros Hnd. rewrite Hset. by apply size_list_to_set.
Qed.
End editor_properties.

(** ** The theorems at work on the example force field *)


(** A bond that is already in the handler keeps [b1] through two calls. *)
Lemma add_smirks_preserves_id_witness :
  ParameterList_find (get_parameter_handler example_forcefield Bonds)
    "[#6:1]-[#6:2]" = Some (0, example_cc) ∧
  ∃ r',
    ParameterList_find
      (get_parameter_handler
         (add_smirks_calls example_forcefield
            [([example_smirk_co; example_smirk_cc], true);
             ([example_smirk_cc_later], false)]) Bonds)
      "[#6:1]-[#6:2]" = Some (0, r') ∧
    pt_id r' = "b1".
Proof.
  split; [reflexivity|].
  destruct (add_smirks_preserves_id example_forcefield Bonds "[#6:1]-[#6:2]"
              0 example_cc eq_refl) as [Hcalls _].
  destruct (Hcalls [([example_smirk_co; example_smirk_cc], true);
                    ([example_smirk_cc_later], false)])
    as (r' & Hfind & Hid & _).
  exists r'. split; [exact Hfind|exact Hid].
Defined.

(** Of two equal bonds in one input, the first is the one written. *)
Lemma add_smirks_deduplicates_witness :
  example_smirk_cc_later ∈
    [example_smirk_cc; example_smirk_co; example_smirk_cc_later] ∧
  ∃ q,
    filter (λ x, sm_smirks x = "[#6:1]-[#6:2]")
      (unique_params Bonds
         [example_smirk_cc; example_smirk_co; example_smirk_cc_later]) = [q] ∧
    list_find (λ x, smirks_eq x example_smirk_cc_later)
      [example_smirk_cc; example_smirk_co; example_smirk_cc_later] =
    Some (0, q).
Proof.
  assert (example_smirk_cc_later ∈
            [example_smirk_cc; example_smirk_co; example_smirk_cc_later])
    as Hin by (right; right; left).
  split; [exact Hin|].
  destruct (add_smirks_deduplicates example_forcefield
              [example_smirk_cc; example_smirk_co; example_smirk_cc_later]
              true example_smirk_cc_later Hin)
    as (j & q & j' & Hfirst & Hfilter & _).
  exists q. split; [exact Hfilter|].
  rewrite Hfirst. f_equal. f_equal.
  cut (Some (j, q) = Some (0, example_smirk_cc)); [congruence|].
  rewrite <- Hfirst. reflexivity.
Defined.

(** Two distinct tuples governed by the first bond of the example form one
    cluster of two atoms. *)
Lemma get_smirks_parameters_clusters_witness :
  ([[0; 1]; [0; 2]] ≠ [] ∧
   (∀ a, a ∈ [[0; 1]; [0; 2]] →
         governing (label_molecule unit example_label_molecules
                      example_forcefield ()) a = Some example_cc) ∧
   NoDup [[0; 1]; [0; 2]]) ∧
  ∃ p,
    get_smirks_parameters unit example_label_molecules example_forcefield ()
      [[0; 1]; [0; 2]] = ret [p] ∧
    size (sm_atoms p) = 2.
Proof.
  assert (∀ a, a ∈ [[0; 1]; [0; 2]] →
            governing (label_molecule unit example_label_molecules
                         example_forcefield ()) a = Some example_cc) as Hall.
  { intros a Ha.
    apply elem_of_cons in Ha as [->|Ha]; [reflexivity|].
    apply elem_of_cons in Ha as [->|Ha]; [reflexivity|].
    by apply elem_of_nil in Ha. }
  assert (NoDup [[0; 1]; [0; 2]]) as Hnd.
  { apply NoDup_cons. split; [|apply NoDup_singleton].
    intros Hin. apply list_elem_of_singleton in Hin. discriminate. }
  split; [split_and!; [discriminate|exact Hall|exact Hnd]|].
  destruct (get_smirks_parameters_clusters unit example_label_molecules
              example_forcefield () [[0; 1]; [0; 2]]) as [_ Hsame].
  destruct (Hsame example_cc ltac:(discriminate) Hall)
    as (p & Hres & _ & _ & _ & Hsize).
  exists p. split; [exact Hres|]. exact (Hsize Hnd).
Defined.

(** C5 as stated fails when a tuple is requested twice: both requests
    resolve to the same record, and the one cluster returned has one atom
    tuple, not two. *)
Lemma get_smirks_parameters_repeated_tuple :
  (∀ a, a ∈ [[0; 1]; [0; 1]] →
        governing (label_molecule unit example_label_molecules
                     example_forcefield ()) a = Some example_cc) ∧
  ¬ ∃ p,
      get_smirks_parameters unit example_label_molecules example_forcefield ()
        [[0; 1]; [0; 1]] = ret [p] ∧
      size (sm_atoms p) = length [[0; 1]; [0; 1]].
Proof.
  split.
  - intros a Ha.
    apply elem_of_cons in Ha as [->|Ha]; [reflexivity|].
    apply elem_of_cons in Ha as [->|Ha]; [reflexivity|].
    by apply elem_of_nil in Ha.
  - intros (p & Hres & Hsize).
    vm_compute in Hres. injection Hres as <-.
    vm_compute in Hsize. discriminate.
Qed.

(** A clustered bond whose one tuple has a label is updated from it. *)
Lemma get_initial_parameters_spec_witness :
  ((∀ a, a ∈ sm_atoms example_smirk_cc →
         is_Some (label_molecule unit example_label_molecules
                    example_forcefield () (sm_type example_smirk_cc) a)) ∧
   sm_atoms example_smirk_cc ≠ ∅) ∧
  ∃ smirk',
    get_initial_parameters unit example_label_molecules example_default_values
      example_forcefield () example_smirk_cc true = ret smirk' ∧
    sm_atoms smirk' = sm_atoms example_smirk_cc.
Proof.
  assert (∀ a, a ∈ sm_atoms example_smirk_cc → a = [0; 1]) as Hatoms.
  { intros a Ha. change (a ∈ ({[ [0; 1] ]} : gset (list nat))) in Ha.
    by apply elem_of_singleton in Ha. }
  assert (∀ a, a ∈ sm_atoms example_smirk_cc →
            is_Some (label_molecule unit example_label_molecules
                       example_forcefield () (sm_type example_smirk_cc) a))
    as Hall.
  { intros a ->%Hatoms. by exists example_cc. }
  assert (sm_atoms example_smirk_cc ≠ ∅) as Hne.
  { intros Hempty. apply (not_elem_of_empty (C:=gset (list nat)) [0; 1]).
    rewrite <- Hempty. change ([0; 1] ∈ ({[ [0; 1] ]} : gset (list nat))).
    by apply elem_of_singleton. }
  split; [by split|].
  destruct (get_initial_parameters_spec unit example_label_molecules
              example_default_values example_forcefield () example_smirk_cc
              true) as [_ Hspec].
  destruct (Hspec Hall) as (_ & _ & Hone).
  destruct Hone as (a & r & smirk' & _ & _ & Hres & _ & _ & _ & Hsame).
  - exact Hne.
  - intros a1 a2 r1 r2 ->%Hatoms ->%Hatoms H1 H2. congruence.
  - exists smirk'. split; [exact Hres|exact Hsame].
Defined.

(** C6 as stated fails on a parameter without atoms: the set of resolved
    identifiers is empty, so it has not more than one element, and yet the
    call fails the assertion and returns no parameter. *)
Lemma get_initial_parameters_rejects_no_atoms :
  sm_atoms example_smirk_co = ∅ ∧
  get_initial_parameters unit example_label_molecules example_default_values
    example_forcefield () example_smirk_co true = raise AssertionError ∧
  ¬ ∃ smirk',
      get_initial_parameters unit example_label_molecules
        example_default_values example_forcefield () example_smirk_co true =
      ret smirk'.
Proof.
  split_and!; [reflexivity|reflexivity|].
  intros (smirk' & Hres). vm_compute in Hres. discriminate.
Qed.

Lemma get_initial_parameters_no_atoms_witness :
  sm_atoms example_smirk_co = ∅ ∧
  get_initial_parameters unit example_label_molecules example_default_values
    example_forcefield () example_smirk_co false = raise AssertionError.
Proof.
  split; [reflexivity|].
  apply get_initial_parameters_no_atoms. reflexivity.
Defined.


(** A batch that mixes a bond already in the handler with a new one: the
    position of the new bond in the batch, not the count of new bonds, sets
    its identifier. *)
Example add_smirks_mixed_batch :
  pt_id <$> get_parameter_handler
              (add_smirks example_forcefield
                 [example_smirk_cc; example_smirk_co] true) Bonds =
  ["b1"; "b2"; "b5"].
Proof. reflexivity. Qed.

(** One object referred to twice in the iterable, around a reference to an
    object whose pattern the force field does not hold: when the loop
    raises, it has overwritten the first object, which is also the object
    of the third reference. *)
Example update_smirks_parameters_shared_object :
  update_smirks_parameters example_default_values true example_forcefield
    [# example_smirk_cc; example_smirk_co] [0%fin; 1%fin; 0%fin] =
  ([# update_parameters example_default_values example_smirk_cc example_cc
        true;
      example_smirk_co],
   raise KeyError) ∧
  sm_values example_smirk_cc = {["k" := "620.0"]} ∧
  sm_values (update_parameters example_default_values example_smirk_cc
               example_cc true) = {["k" := "600.0"]}.
Proof. split_and!; reflexivity. Qed.

(** * Further properties of [add_smirks] *)

(** ** The handler of a type sees only the parameters of its type *)

Lemma unique_params_no_type t smirks :
  (∀ p, p ∈ smirks → sm_type p ≠ t) → unique_params t smirks = [].
Proof.
  intros Hnone. destruct (unique_params t smirks) as [|p ps] eqn:E; [done|].
  destruct (unique_params_elem_of t smirks p) as [Hin Ht].
  { rewrite E. by left. }
  by destruct (Hnone p Hin).
Qed.

Lemma unique_params_filter t smirks :
  unique_params t (filter (λ p, sm_type p = t) smirks) = unique_params t smirks.
Proof.
  induction smirks as [|x smirks IH] using rev_ind; [done|].
  rewrite filter_app, filter_cons, filter_nil, (unique_params_snoc _ smirks).
  destruct (decide (sm_type x = t)) as [Ht|Ht].
  - rewrite unique_params_snoc, IH. by rewrite !decide_True.
  - rewrite app_nil_r, IH. by rewrite decide_False.
Qed.

(** X1. A call of [add_smirks] whose input has no parameter of type [t]
    leaves the handler of [t] as it was. *)
Theorem add_smirks_other_types (ff : ForceField) (smirks : list SmirksSchema)
    (parameterize : bool) (t : SmirksType) :
  (∀ p, p ∈ smirks → sm_type p ≠ t) →
  get_parameter_handler (add_smirks ff smirks parameterize) t =
  get_parameter_handler ff t.
Proof.
  intros Hnone. rewrite add_smirks_handler.
  by rewrite unique_params_no_type.
Qed.

(** X2. What a call of [add_smirks] does to the handler of a type depends
    only on the parameters of that type in the input: dropping all the
    others from the input gives the same handler. *)
Theorem add_smirks_by_type (ff : ForceField) (smirks : list SmirksSchema)
    (parameterize : bool) (t : SmirksType) :
  get_parameter_handler (add_smirks ff smirks parameterize) t =
  get_parameter_handler
    (add_smirks ff (filter (λ p, sm_type p = t) smirks) parameterize) t.
Proof. by rewrite !add_smirks_handler, unique_params_filter. Qed.

(** ** The patterns of a handler *)

(** X3. After a call of [add_smirks] the patterns of a handler are its
    patterns from before the call, at the same positions, followed by the
    patterns of the deduplicated parameters of its type that were not in
    the handler, in input order; the handler grows by exactly their
    number and never shrinks. *)
Theorem add_smirks_patterns (ff : ForceField) (smirks : list SmirksSchema)
    (parameterize : bool) (t : SmirksType) :
  pt_smirks <$> get_parameter_handler (add_smirks ff smirks parameterize) t =
  (pt_smirks <$> get_parameter_handler ff t) ++
  filter (λ s, s ∉ pt_smirks <$> get_parameter_handler ff t)
    (sm_smirks <$> unique_params t smirks) ∧
  length (get_parameter_handler (add_smirks ff smirks parameterize) t) =
  length (get_parameter_handler ff t) +
  length (filter (λ s, s ∉ pt_smirks <$> get_parameter_handler ff t)
            (sm_smirks <$> unique_params t smirks)).
Proof.
  assert (pt_smirks <$>
            get_parameter_handler (add_smirks ff smirks parameterize) t =
          (pt_smirks <$> get_parameter_handler ff t) ++
          filter (λ s, s ∉ pt_smirks <$> get_parameter_handler ff t)
            (sm_smirks <$> unique_params t smirks)) as Hkeys.
  { rewrite add_smirks_handler.
    apply add_parameters_keys, unique_params_NoDup. }
  split; [done|].
  apply (f_equal length) in Hkeys.
  by rewrite length_app, !length_fmap in Hkeys.
Qed.

(** ** Records that a call does not touch *)

Lemma add_parameter_lookup_other par t N h i p j r :
  h !! j = Some r → pt_smirks r ≠ sm_smirks p →
  add_parameter par t N h i p !! j = Some r.
Proof.
  intros Hj Hne.
  destruct (ParameterList_find h (sm_smirks p)) as [[idx cur]|] eqn:Ep.
  - rewrite (add_parameter_found _ _ _ _ _ _ idx cur) by done.
    pose proof (list_find_key_lookup pt_smirks _ _ _ _ Ep) as [Hidx Hcur].
    rewrite list_lookup_insert_ne; [done|]. intros ->. simplify_eq.
  - rewrite add_parameter_new by done. by apply lookup_app_l_Some.
Qed.

Lemma add_parameters_lookup_other par t N h i ps j r :
  h !! j = Some r → pt_smirks r ∉ sm_smirks <$> ps →
  add_parameters par t N h i ps !! j = Some r.
Proof.
  revert h i. induction ps as [|p ps IH]; intros h i Hj Hr; [done|].
  rewrite fmap_cons in Hr. apply not_elem_of_cons in Hr as [Hp Hr].
  simpl. apply IH; [|done]. by apply add_parameter_lookup_other.
Qed.

(** X4. A record whose pattern is the pattern of no parameter of its type
    in the input is still the same record at the same position after the
    call. *)
Theorem add_smirks_untouched (ff : ForceField) (smirks : list SmirksSchema)
    (parameterize : bool) (t : SmirksType) (j : nat) (r : ParameterType) :
  get_parameter_handler ff t !! j = Some r →
  (∀ p, p ∈ smirks → sm_type p = t → sm_smirks p ≠ pt_smirks r) →
  get_parameter_handler (add_smirks ff smirks parameterize) t !! j = Some r.
Proof.
  intros Hj Hother. rewrite add_smirks_handler.
  apply add_parameters_lookup_other; [done|].
  intros (p & Hs & Hp)%list_elem_of_fmap.
  apply unique_params_elem_of in Hp as [Hin Ht].
  by apply (Hother p Hin Ht).
Qed.

(** ** Looking up what was written *)

Lemma unique_params_complete smirks p :
  p ∈ smirks →
  ∃ j q j',
    list_find (λ x, smirks_eq x p) smirks = Some (j, q) ∧
    list_find (λ x, sm_smirks x = sm_smirks p)
      (unique_params (sm_type p) smirks) = Some (j', q).
Proof.
  intros Hp.
  destruct (list_find_elem_of (λ x, smirks_eq x p) smirks p)
    as [[j q] Hq]; [done|by split|].
  pose proof (unique_params_first (sm_type p) smirks (sm_smirks p)) as Hfirst.
  rewrite (list_find_ext (λ x, sm_type x = sm_type p ∧ sm_smirks x = sm_smirks p)
             (λ x, smirks_eq x p)) in Hfirst by (intros x; reflexivity).
  rewrite Hq in Hfirst.
  destruct (list_find (λ x, sm_smirks x = sm_smirks p)
              (unique_params (sm_type p) smirks)) as [[j' q']|] eqn:Eu;
    simplify_eq/=.
  by exists j, q, j'.
Qed.

Lemma add_smirks_lookup ff smirks par p :
  p ∈ smirks →
  ∃ j q idx r,
    list_find (λ x, smirks_eq x p) smirks = Some (j, q) ∧
    ParameterList_find
      (get_parameter_handler (add_smirks ff smirks par) (sm_type p))
      (sm_smirks p) = Some (idx, r) ∧
    r = record_of par q (pt_class r) (pt_id r).
Proof.
  intros Hp. destruct (unique_params_complete smirks p Hp)
    as (j & q & j' & Hfirst & Hu).
  pose proof (list_find_key_lookup sm_smirks _ _ _ _ Hu) as [Hj' Hs].
  pose proof (add_parameters_settles par (sm_type p)
                (length (get_parameter_handler ff (sm_type p)))
                (get_parameter_handler ff (sm_type p)) 2
                (unique_params (sm_type p) smirks)
                (unique_params_NoDup _ _)) as Hall.
  rewrite Forall_forall in Hall.
  destruct (Hall q) as (idx & r & Hfind & Hr);
    [by eapply list_elem_of_lookup_2|].
  exists j, q, idx, r. rewrite add_smirks_handler, <- Hs. done.
Qed.

Lemma smirk_data_of_parameterize par p :
  smirk_data_of par p !! "parameterize" =
  if par then to_off_smirks p !! "parameterize" else None.
Proof.
  unfold smirk_data_of. destruct par; [done|]. apply lookup_delete_eq.
Qed.

Lemma smirk_data_of_other par p k :
  k ≠ "parameterize" → smirk_data_of par p !! k = to_off_smirks p !! k.
Proof.
  intros ?. unfold smirk_data_of. destruct par; [done|].
  by apply lookup_delete_ne.
Qed.

Lemma record_of_lookup par p c x k :
  k ≠ "smirks" → k ≠ "id" →
  pt_fields (record_of par p c x) !! k = smirk_data_of par p !! k.
Proof.
  intros ??. rewrite record_of_fields. by rewrite !lookup_delete_ne.
Qed.

(** X5. After a call of [add_smirks], the lookup of the pattern of any
    parameter of the input in the handler of its type finds a record with
    that pattern, and every field of the record, under a name other than
    ["smirks"], ["id"] and ["parameterize"], is the entry of that name in
    the serialisation of the first parameter of the input equal to it. *)
Theorem add_smirks_then_lookup (ff : ForceField) (smirks : list SmirksSchema)
    (parameterize : bool) (p : SmirksSchema) :
  p ∈ smirks →
  ∃ j q r,
    list_find (λ x, smirks_eq x p) smirks = Some (j, q) ∧
    ParameterList_getitem
      (get_parameter_handler (add_smirks ff smirks parameterize) (sm_type p))
      (sm_smirks p) = Some r ∧
    pt_smirks r = sm_smirks p ∧
    ∀ k, k ≠ "smirks" → k ≠ "id" → k ≠ "parameterize" →
         pt_fields r !! k = to_off_smirks q !! k.
Proof.
  intros Hp.
  destruct (add_smirks_lookup ff smirks parameterize p Hp)
    as (j & q & idx & r & Hfirst & Hfind & Hr).
  exists j, q, r. split_and!; [done| | |].
  - unfold ParameterList_getitem. by rewrite Hfind.
  - by apply (list_find_key_lookup pt_smirks _ _ _ _ Hfind).
  - intros k ???. rewrite Hr, record_of_lookup by done.
    by apply smirk_data_of_other.
Qed.

(** X6. The record written for a parameter has under ["parameterize"]
    the entry of the parameter's serialisation when the call is made with
    [parameterize] set, and no field of that name when it is not. *)
Theorem add_smirks_parameterize_field (ff : ForceField)
    (smirks : list SmirksSchema) (parameterize : bool) (p : SmirksSchema) :
  p ∈ smirks →
  ∃ j q r,
    list_find (λ x, smirks_eq x p) smirks = Some (j, q) ∧
    ParameterList_getitem
      (get_parameter_handler (add_smirks ff smirks parameterize) (sm_type p))
      (sm_smirks p) = Some r ∧
    pt_fields r !! "parameterize" =
    if parameterize then to_off_smirks q !! "parameterize" else None.
Proof.
  intros Hp.
  destruct (add_smirks_lookup ff smirks parameterize p Hp)
    as (j & q & idx & r & Hfirst & Hfind & Hr).
  exists j, q, r. split_and!; [done| |].
  - unfold ParameterList_getitem. by rewrite Hfind.
  - rewrite Hr, record_of_lookup by done. apply smirk_data_of_parameterize.
Qed.

(** ** Identifiers *)

(** X7. The identifiers of a handler stay pairwise distinct through a call
    of [add_smirks] when none of the identifiers that the call can hand
    out, the prefix of the type followed by [N + 2 + j] for a position [j]
    of the deduplicated parameters of the type, is in use before the
    call. *)
Theorem add_smirks_ids_distinct (ff : ForceField) (smirks : list SmirksSchema)
    (parameterize : bool) (t : SmirksType) :
  NoDup (pt_id <$> get_parameter_handler ff t) →
  (∀ j, j < length (unique_params t smirks) →
        _smirks_ids t +:+
          pretty (length (get_parameter_handler ff t) + (2 + j))
        ∉ pt_id <$> get_parameter_handler ff t) →
  NoDup (pt_id <$> get_parameter_handler (add_smirks ff smirks parameterize) t).
Proof.
  intros Hnd Hfresh. rewrite add_smirks_handler.
  destruct (add_parameters_ids parameterize t
              (length (get_parameter_handler ff t))
              (get_parameter_handler ff t) 2 (unique_params t smirks))
    as (new & -> & Hsub).
  apply NoDup_app. split_and!; [done| |].
  - intros x Hx Hnew.
    apply (elem_of_sublist _ _ _ Hnew) in Hsub.
    apply list_elem_of_fmap in Hsub as (n & -> & Hn).
    apply elem_of_seq in Hn.
    apply (Hfresh (n - 2)); [lia|].
    by replace (2 + (n - 2)) with n by lia.
  - eapply sublist_NoDup; [apply candidate_ids_NoDup|done].
Qed.

(** ** Repeated parameters *)

Lemma unique_params_drop_later t l1 l2 p' :
  (∃ q, q ∈ l1 ∧ smirks_eq p' q) →
  unique_params t (l1 ++ p' :: l2) = unique_params t (l1 ++ l2).
Proof.
  intros (q & Hq & Hty & Hs).
  induction l2 as [|x l2 IH] using rev_ind.
  - rewrite app_nil_r, unique_params_snoc.
    case_decide as Ht; [|done].
    destruct (smirk_in p' (unique_params t l1)) eqn:Hin; [done|].
    apply not_true_iff_false in Hin. destruct Hin.
    apply (smirk_in_typed t); [done|apply unique_params_type|].
    destruct (unique_params_complete l1 q Hq) as (j & q0 & j' & _ & Hu).
    apply (list_find_key_lookup sm_smirks) in Hu as [Hj' Hq0].
    rewrite Hs, <- Hq0, Ht, Hty.
    by eapply list_elem_of_fmap_2, list_elem_of_lookup_2.
  - rewrite (app_comm_cons l2 [x] p'), !app_assoc.
    by rewrite !unique_params_snoc, IH.
Qed.

(** X8. A parameter of the input that is equal (same type, same pattern)
    to an earlier parameter of the input has no effect at all: the call
    leaves the force field as the call without it does. *)
Theorem add_smirks_ignores_later_equal (ff : ForceField)
    (l1 l2 : list SmirksSchema) (p' : SmirksSchema) (parameterize : bool) :
  (∃ q, q ∈ l1 ∧ smirks_eq p' q) →
  add_smirks ff (l1 ++ p' :: l2) parameterize =
  add_smirks ff (l1 ++ l2) parameterize.
Proof.
  intros Hq. apply ForceField_ext. intros t.
  by rewrite !add_smirks_handler, unique_params_drop_later.
Qed.

(** X9. Identifiers are not kept distinct in general: from a handler with
    the distinct identifiers [b1], [b2], a call with a bond that exists and
    a new one (which gets [b5]) followed by a call with another new bond
    (which gets [b5] again, the size being 3 by then) leaves two records
    with one identifier. *)
Theorem add_smirks_ids_can_clash :
  ∃ (ff : ForceField) (calls : list (list SmirksSchema * bool))
    (t : SmirksType),
    NoDup (pt_id <$> get_parameter_handler ff t) ∧
    ¬ NoDup (pt_id <$> get_parameter_handler (add_smirks_calls ff calls) t).
Proof.
  exists example_forcefield,
    [([example_smirk_cc; example_smirk_co], true); ([example_smirk_cn], true)],
    Bonds.
  split.
  - change (NoDup ["b1"; "b2"]). apply (bool_decide_unpack _). by vm_compute.
  - change (¬ NoDup ["b1"; "b2"; "b5"; "b5"]). intros Hnd.
    apply NoDup_cons in Hnd as [_ Hnd].
    apply NoDup_cons in Hnd as [_ Hnd].
    apply NoDup_cons in Hnd as [Hin _].
    apply Hin. by left.
Qed.

Section editor_composition.
Context (Molecule : Type) (label_molecules : ForceField → Molecule → Labels).
Context (default_values : SmirksType → gmap string string).
Context (clear_existing_default : bool).

(** X10. After [add_smirks] has been called with an input, every parameter
    of that input is in the force field, so [update_smirks_parameters] on
    the same input does not raise, and it sets each parameter from the
    record that the lookup of its pattern finds.  The input is a list of
    references to the objects of a store; [add_smirks] reads the objects
    and [update_smirks_parameters] writes them. *)
Theorem update_after_add_smirks {n : nat} (ff : ForceField)
    (store : vec SmirksSchema n) (smirks : list (fin n))
    (parameterize : bool) :
  (update_smirks_parameters default_values clear_existing_default
     (add_smirks ff ((λ ref, store !!! ref) <$> smirks) parameterize)
     store smirks).2 = ret () ∧
  ∀ i ref, smirks !! i = Some ref →
    ∃ r, handler_record
           (add_smirks ff ((λ ref, store !!! ref) <$> smirks) parameterize)
           (store !!! ref) = Some r ∧
         (update_smirks_parameters default_values clear_existing_default
            (add_smirks ff ((λ ref, store !!! ref) <$> smirks) parameterize)
            store smirks).1 !!! ref =
         update_parameters default_values (store !!! ref) r
           clear_existing_default.
Proof.
  set (ff' := add_smirks ff ((λ ref, store !!! ref) <$> smirks) parameterize).
  assert (∀ ref, ref ∈ smirks → is_Some (handler_record ff' (store !!! ref)))
    as Hall.
  { intros ref Hp.
    destruct (add_smirks_lookup ff ((λ ref, store !!! ref) <$> smirks)
                parameterize (store !!! ref))
      as (j & q & idx & r & _ & Hfind & _).
    { by apply (list_elem_of_fmap_2 (λ ref, store !!! ref)). }
    exists r. unfold handler_record, ParameterList_getitem, ff'.
    by rewrite Hfind. }
  pose proof (update_smirks_parameters_run default_values
                clear_existing_default ff' smirks store) as Hrun.
  destruct (list_find _ smirks) as [[i x]|] eqn:Efind.
  - apply list_find_Some in Efind as (Hi & Hx & _).
    destruct (Hall x) as [r Hr]; [by eapply list_elem_of_lookup_2|].
    congruence.
  - destruct Hrun as [Hout Hobj]. split; [done|]. intros i ref Hi.
    assert (ref ∈ smirks) as Hin by (by eapply list_elem_of_lookup_2).
    destruct (Hall ref Hin) as [r Hr].
    exists r. split; [done|].
    rewrite Hobj, decide_True by done. unfold updated_object.
    by rewrite Hr.
Qed.
End editor_composition.

(** * Further properties of the queries *)

Lemma first_encounters_elem_of seen l x :
  x ∈ l → x ∈ seen ∨ x ∈ first_encounters seen l.
Proof.
  revert seen. induction l as [|k l IH]; intros seen Hx.
  - by apply elem_of_nil in Hx.
  - cbn [first_encounters]. apply elem_of_cons in Hx as [->|Hx].
    + case_decide; [by left|right; by left].
    + case_decide.
      * by apply IH.
      * destruct (IH (seen ++ [k]) Hx) as [Hs|Hs]; [|right; by right].
        apply elem_of_app in Hs as [?|Hs]; [by left|].
        apply list_elem_of_singleton in Hs as ->. right; by left.
Qed.

Lemma first_encounters_subseteq seen l x :
  x ∈ first_encounters seen l → x ∈ l.
Proof.
  revert seen. induction l as [|k l IH]; intros seen; [done|].
  cbn [first_encounters]. case_decide.
  - intros ?%IH. by right.
  - intros [->|?%IH]%elem_of_cons; [by left|by right].
Qed.

Lemma first_encounters_length seen l :
  length (first_encounters seen l) ≤ length l.
Proof.
  revert seen. induction l as [|k l IH]; intros seen; [done|].
  cbn [first_encounters length]. case_decide.
  - specialize (IH seen). lia.
  - specialize (IH (seen ++ [k])). simpl. lia.
Qed.

Section query_properties.
Context (Molecule : Type) (label_molecules : ForceField → Molecule → Labels).
Context (default_values : SmirksType → gmap string string).

Local Abbreviation update_parameters := (update_parameters default_values).
Local Abbreviation get_initial_parameters :=
  (get_initial_parameters Molecule label_molecules default_values).
Local Abbreviation get_smirks_parameters :=
  (get_smirks_parameters Molecule label_molecules).
Local Abbreviation label_molecule := (label_molecule Molecule label_molecules).

Lemma get_smirks_parameters_loop_fails labels acc atoms a :
  a ∈ atoms → governing labels a = None →
  get_smirks_parameters_loop labels acc atoms = raise KeyError.
Proof.
  intros Ha Hnone. revert acc.
  induction Ha as [a atoms|a b atoms Hin IH]; intros acc.
  - cbn [get_smirks_parameters_loop].
    by rewrite get_smirks_parameters_step_ungoverned.
  - cbn [get_smirks_parameters_loop].
    destruct (governing labels b) as [r|] eqn:Hb.
    + rewrite (get_smirks_parameters_step_governed _ _ _ r) by done.
      cbn [bind ret]. by apply IH.
    + by rewrite get_smirks_parameters_step_ungoverned.
Qed.

Lemma get_smirks_parameters_loop_returns labels acc atoms res :
  get_smirks_parameters_loop labels acc atoms = ret res →
  ∃ rs, Forall2 (λ a r, governing labels a = Some r) atoms rs.
Proof.
  revert acc. induction atoms as [|a atoms IH]; intros acc Hloop.
  - exists []. constructor.
  - cbn [get_smirks_parameters_loop] in Hloop.
    destruct (governing labels a) as [r|] eqn:Ha.
    + rewrite (get_smirks_parameters_step_governed _ _ _ r) in Hloop by done.
      cbn [bind ret] in Hloop. destruct (IH _ Hloop) as [rs Hrs].
      exists (r :: rs). by constructor.
    + by rewrite get_smirks_parameters_step_ungoverned in Hloop.
Qed.

Lemma governing_arity labels a :
  length a = 0 ∨ 4 < length a → governing labels a = None.
Proof.
  unfold governing. intros [Hlen|Hlen].
  - by rewrite Hlen.
  - revert Hlen. generalize (length a). intros n Hlen.
    destruct n as [|[|[|[|[|n]]]]]; (done || lia).
Qed.

(** X11. [get_smirks_parameters] raises the lookup failure as soon as one
    requested tuple has no governing record: a tuple of a length other
    than 1, 2, 3 or 4 (no entry in the arity table), or a tuple that the
    label mapping of its type does not have. *)
Theorem get_smirks_parameters_fails (self : ForceField) (molecule : Molecule)
    (atoms : list (list nat)) (a : list nat) :
  a ∈ atoms →
  length a = 0 ∨ 4 < length a ∨
  (∃ t, _atoms_to_params (length a) = Some t ∧
        label_molecule self molecule t a = None) →
  get_smirks_parameters self molecule atoms = raise KeyError.
Proof.
  intros Ha Hbad. unfold get_smirks_parameters.
  apply (get_smirks_parameters_loop_fails _ _ _ a); [done|].
  destruct Hbad as [Hlen|[Hlen|(t & Ht & Hlab)]].
  - apply governing_arity. by left.
  - apply governing_arity. by right.
  - unfold governing. by rewrite Ht.
Qed.

Lemma NoDup_key_inj {A K} `{EqDecision K} (f : A → K) (l : list A) x y :
  NoDup (f <$> l) → x ∈ l → y ∈ l → f x = f y → x = y.
Proof.
  intros Hnd Hx Hy Hf.
  destruct (list_find_key_self f l x Hnd Hx) as [i Hi].
  destruct (list_find_key_self f l y Hnd Hy) as [j Hj].
  rewrite Hf, Hj in Hi. by simplify_eq.
Qed.

Lemma elem_of_atoms_for labels k atoms a :
  a ∈ atoms_for labels k atoms ↔
  a ∈ atoms ∧ record_key <$> governing labels a = Some k.
Proof.
  unfold atoms_for. rewrite elem_of_list_to_set, list_elem_of_filter.
  naive_solver.
Qed.

(** X12. When [get_smirks_parameters] returns, the atoms of the returned
    parameters partition the requested tuples: every requested tuple is in
    the atoms of exactly one returned parameter, every returned parameter
    has at least one tuple, all of them requested, and there are at most as
    many parameters as requested tuples. *)
Theorem get_smirks_parameters_partition (self : ForceField)
    (molecule : Molecule) (atoms : list (list nat)) (res : list SmirksSchema) :
  get_smirks_parameters self molecule atoms = ret res →
  (∀ a, a ∈ atoms →
     ∃ p, p ∈ res ∧ a ∈ sm_atoms p ∧
          ∀ p', p' ∈ res → a ∈ sm_atoms p' → p' = p) ∧
  (∀ p, p ∈ res →
     (∃ a, a ∈ sm_atoms p) ∧ ∀ a, a ∈ sm_atoms p → a ∈ atoms) ∧
  length res ≤ length atoms.
Proof.
  intros Hres.
  destruct (get_smirks_parameters_loop_returns _ _ _ _ Hres) as [rs HF].
  destruct (get_smirks_parameters_governed Molecule label_molecules self
              molecule atoms rs HF) as (res' & Hres' & Hkeys & Hnd & Hatoms).
  rewrite Hres in Hres'. unfold ret in Hres'. simplify_eq.
  split_and!.
  - intros a Ha.
    apply list_elem_of_lookup in Ha as [i Hi].
    destruct (Forall2_lookup_l _ _ _ _ _ HF Hi) as (r & Hr & Hgov).
    assert (record_key r ∈ smirks_key <$> res') as Hk.
    { rewrite Hkeys.
      destruct (first_encounters_elem_of [] (record_key <$> rs) (record_key r))
        as [Hnil|?]; [|by apply elem_of_nil in Hnil|done].
      by eapply list_elem_of_fmap_2, list_elem_of_lookup_2. }
    apply list_elem_of_fmap in Hk as (p & Hkp & Hp).
    exists p. split_and!; [done| |].
    + rewrite (Hatoms p Hp). apply elem_of_atoms_for.
      split; [by eapply list_elem_of_lookup_2|]. rewrite Hgov. simpl.
      congruence.
    + intros p' Hp' Ha'. rewrite (Hatoms p' Hp') in Ha'.
      apply elem_of_atoms_for in Ha' as [_ Hk'].
      rewrite Hgov in Hk'. simplify_eq/=.
      apply (NoDup_key_inj smirks_key res'); [done..|]. congruence.
  - intros p Hp. split.
    + assert (smirks_key p ∈ record_key <$> rs) as Hk.
      { apply (first_encounters_subseteq []). rewrite <- Hkeys.
        by apply list_elem_of_fmap_2. }
      apply list_elem_of_fmap in Hk as (r & Hkr & Hr).
      apply list_elem_of_lookup in Hr as [i Hi].
      destruct (Forall2_lookup_r _ _ _ _ _ HF Hi) as (a & Ha & Hgov).
      exists a. rewrite (Hatoms p Hp). apply elem_of_atoms_for.
      split; [by eapply list_elem_of_lookup_2|]. rewrite Hgov. simpl.
      congruence.
    + intros a Ha. rewrite (Hatoms p Hp) in Ha.
      by apply elem_of_atoms_for in Ha as [? _].
  - rewrite <- (length_fmap smirks_key), Hkeys.
    etrans; [apply first_encounters_length|].
    rewrite length_fmap. by rewrite (Forall2_length _ _ _ HF).
Qed.

Lemma get_initial_parameters_one_id self molecule smirk clear_existing :
  sm_atoms smirk ≠ ∅ →
  (∀ a, a ∈ sm_atoms smirk →
        is_Some (label_molecule self molecule (sm_type smirk) a)) →
  (∀ a1 a2 r1 r2,
     a1 ∈ sm_atoms smirk → a2 ∈ sm_atoms smirk →
     label_molecule self molecule (sm_type smirk) a1 = Some r1 →
     label_molecule self molecule (sm_type smirk) a2 = Some r2 →
     pt_id r1 = pt_id r2) →
  ∃ a r,
    a ∈ sm_atoms smirk ∧
    label_molecule self molecule (sm_type smirk) a = Some r ∧
    get_initial_parameters self molecule smirk clear_existing =
    ret (update_parameters smirk r clear_existing).
Proof.
  intros Hne Hall Hsame.
  destruct (get_initial_parameters_resolved Molecule label_molecules
              default_values self molecule smirk clear_existing Hall)
    as (rs & HF & ->).
  assert (∀ r, r ∈ rs → ∃ a, a ∈ sm_atoms smirk ∧
            label_molecule self molecule (sm_type smirk) a = Some r) as Hrs.
  { intros r Hr. apply list_elem_of_lookup in Hr as [i Hi].
    destruct (Forall2_lookup_r _ _ _ _ _ HF Hi) as (a & Ha & Hlab).
    exists a. split; [|done].
    apply elem_of_elements, list_elem_of_lookup. eauto. }
  destruct rs as [|r rs].
  { apply Forall2_nil_inv_r in HF. apply elements_empty_inv in HF.
    destruct Hne. by apply leibniz_equiv. }
  rewrite decide_True.
  - destruct (Hrs r) as (a & Ha & Hlab); [by left|]. by exists a, r.
  - apply size_list_to_set_1. split; [done|].
    intros x y (r1 & -> & Hr1)%list_elem_of_fmap (r2 & -> & Hr2)%list_elem_of_fmap.
    destruct (Hrs r1 Hr1) as (a1 & ? & ?).
    destruct (Hrs r2 Hr2) as (a2 & ? & ?). eauto.
Qed.

(** X13. When the atoms of the parameter are not empty and all resolve to
    one record, [get_initial_parameters] does not fail and returns the
    parameter updated from that record; a parameter with a single tuple
    that has a label is the simplest case. *)
Theorem get_initial_parameters_one_record (self : ForceField)
    (molecule : Molecule) (smirk : SmirksSchema) (clear_existing : bool)
    (r : ParameterType) :
  sm_atoms smirk ≠ ∅ →
  (∀ a, a ∈ sm_atoms smirk →
        label_molecule self molecule (sm_type smirk) a = Some r) →
  get_initial_parameters self molecule smirk clear_existing =
  ret (update_parameters smirk r clear_existing).
Proof.
  intros Hne Hall.
  destruct (get_initial_parameters_one_id self molecule smirk clear_existing)
    as (a & r' & Ha & Hlab & ->); [done| | |].
  - intros a Ha. rewrite (Hall a Ha). by eexists.
  - intros a1 a2 r1 r2 Ha1 Ha2. rewrite (Hall a1 Ha1), (Hall a2 Ha2).
    congruence.
  - rewrite (Hall a Ha) in Hlab. by simplify_eq.
Qed.

Lemma get_smirks_parameters_cluster self molecule atoms res p :
  get_smirks_parameters self molecule atoms = ret res → p ∈ res →
  (∃ a, a ∈ sm_atoms p) ∧
  ∀ a, a ∈ sm_atoms p →
       a ∈ atoms ∧
       ∃ r, governing (label_molecule self molecule) a = Some r ∧
            record_key r = smirks_key p.
Proof.
  intros Hres Hp.
  destruct (get_smirks_parameters_loop_returns _ _ _ _ Hres) as [rs HF].
  destruct (get_smirks_parameters_governed Molecule label_molecules self
              molecule atoms rs HF) as (res' & Hres' & Hkeys & Hnd & Hatoms).
  rewrite Hres in Hres'. unfold ret in Hres'. simplify_eq.
  split.
  - assert (smirks_key p ∈ record_key <$> rs) as Hk.
    { apply (first_encounters_subseteq []). rewrite <- Hkeys.
      by apply list_elem_of_fmap_2. }
    apply list_elem_of_fmap in Hk as (r & Hkr & Hr).
    apply list_elem_of_lookup in Hr as [i Hi].
    destruct (Forall2_lookup_r _ _ _ _ _ HF Hi) as (a & Ha & Hgov).
    exists a. rewrite (Hatoms p Hp). apply elem_of_atoms_for.
    split; [by eapply list_elem_of_lookup_2|]. rewrite Hgov. simpl.
    congruence.
  - intros a Ha. rewrite (Hatoms p Hp) in Ha.
    apply elem_of_atoms_for in Ha as [Hin Hk]. split; [done|].
    destruct (governing _ a) as [r|]; [|done]. exists r. by simplify_eq/=.
Qed.

(** X14. The two queries compose.  Let the labelling give, under each
    type, only records of the class of that type, and the same identifier
    to records with the same pattern.  Then every parameter that
    [get_smirks_parameters] returns passes [get_initial_parameters] on the
    same molecule: the assertion holds and the parameter comes back updated
    from a record with its own pattern that governs one of its tuples. *)
Theorem get_initial_parameters_of_cluster (self : ForceField)
    (molecule : Molecule) (atoms : list (list nat)) (res : list SmirksSchema)
    (p : SmirksSchema) (clear_existing : bool) :
  (∀ t a r, label_molecule self molecule t a = Some r → pt_class r = t) →
  (∀ t a1 a2 r1 r2,
     label_molecule self molecule t a1 = Some r1 →
     label_molecule self molecule t a2 = Some r2 →
     pt_smirks r1 = pt_smirks r2 → pt_id r1 = pt_id r2) →
  get_smirks_parameters self molecule atoms = ret res →
  p ∈ res →
  ∃ a r,
    a ∈ sm_atoms p ∧
    label_molecule self molecule (sm_type p) a = Some r ∧
    pt_smirks r = sm_smirks p ∧
    get_initial_parameters self molecule p clear_existing =
    ret (update_parameters p r clear_existing).
Proof.
  intros Hclass Hid Hres Hp.
  destruct (get_smirks_parameters_cluster self molecule atoms res p Hres Hp)
    as [[a0 Ha0] Hgov].
  assert (∀ a, a ∈ sm_atoms p →
            ∃ r, label_molecule self molecule (sm_type p) a = Some r ∧
                 pt_smirks r = sm_smirks p) as Hlab.
  { intros a Ha. destruct (Hgov a Ha) as (_ & r & Hr & Hk).
    exists r. unfold governing in Hr.
    destruct (_atoms_to_params (length a)) as [t|]; [|done].
    pose proof (Hclass t a r Hr) as Ht.
    unfold record_key, smirks_key in Hk. simplify_eq.
    split; [congruence|done]. }
  destruct (get_initial_parameters_one_id self molecule p clear_existing)
    as (a & r & Ha & Hr & Hret).
  - intros Hempty. rewrite Hempty in Ha0. by apply not_elem_of_empty in Ha0.
  - intros a Ha. destruct (Hlab a Ha) as (r & Hr & _). by exists r.
  - intros a1 a2 r1 r2 Ha1 Ha2 Hr1 Hr2.
    destruct (Hlab a1 Ha1) as (r1' & Hr1' & Hs1).
    destruct (Hlab a2 Ha2) as (r2' & Hr2' & Hs2).
    rewrite Hr1 in Hr1'. rewrite Hr2 in Hr2'. simplify_eq.
    apply (Hid (sm_type p) a1 a2); [done..|congruence].
  - exists a, r. split_and!; [done..| |done].
    destruct (Hlab a Ha) as (r' & Hr' & Hs). rewrite Hr in Hr'.
    by simplify_eq.
Qed.
End query_properties.

(** * Further properties of the workflow stage and of the constructor *)

(** X15. The string values of the members of [CollectionMethod] are
    pairwise distinct, and so are those of [Precedence]: looking a member
    up by its value gives the member back, and a lookup that succeeds on a
    string returns a member with that string as value. *)
Theorem enum_value_round_trip :
  (∀ m, CollectionMethod_of_value (CollectionMethod_value m) = Some m) ∧
  (∀ s m, CollectionMethod_of_value s = Some m → CollectionMethod_value m = s) ∧
  (∀ p, Precedence_of_value (Precedence_value p) = Some p) ∧
  (∀ s p, Precedence_of_value s = Some p → Precedence_value p = s).
Proof.
  split_and!.
  - by intros [].
  - intros s m. unfold CollectionMethod_of_value.
    destruct (list_find _ _) as [[i m']|] eqn:E; [|done].
    intros [= <-]. by apply list_find_Some in E as (_ & ? & _).
  - by intros [].
  - intros s p. unfold Precedence_of_value.
    destruct (list_find _ _) as [[i p']|] eqn:E; [|done].
    intros [= <-]. by apply list_find_Some in E as (_ & ? & _).
Qed.

(** X16. Every name listed in [_enum_fields] is a field of the stage, and
    the field holds a member of an enumeration, for every stage. *)
Theorem enum_fields_are_enum_attributes {ndarray : Type}
    (self : WorkflowStage ndarray) (name : string) :
  name ∈ _enum_fields →
  ∃ v, WorkflowStage_getattr self name = ret v ∧ attribute_is_enum v = true.
Proof.
  intros Hname. unfold _enum_fields in Hname.
  apply elem_of_cons in Hname as [->|Hname]; [by eexists|].
  apply elem_of_cons in Hname as [->|Hname]; [by eexists|].
  apply elem_of_cons in Hname as [->|Hname]; [by eexists|].
  by apply elem_of_nil in Hname.
Qed.

(** X17. Whatever handlers the loaded force field has, after the
    constructor has stripped the constraints there is no handler under
    ["Constraints"], every other handler is the one that was there, a force
    field without that handler is left as it is, and stripping twice is
    stripping once. *)
Theorem strip_constraints_spec {Handler : Type}
    (handlers : gmap string Handler) :
  strip_constraints handlers !! "Constraints" = None ∧
  (∀ name, name ≠ "Constraints" →
           strip_constraints handlers !! name = handlers !! name) ∧
  (handlers !! "Constraints" = None → strip_constraints handlers = handlers) ∧
  strip_constraints (strip_constraints handlers) = strip_constraints handlers.
Proof.
  assert (strip_constraints handlers !! "Constraints" = None) as Hnone.
  { unfold strip_constraints.
    destruct (handlers !! "Constraints") eqn:E; [|done].
    apply lookup_delete_eq. }
  split_and!; [done| | |].
  - intros name Hname. unfold strip_constraints.
    destruct (handlers !! "Constraints"); [|done].
    by apply lookup_delete_ne.
  - intros Habsent. unfold strip_constraints. by rewrite Habsent.
  - unfold strip_constraints at 1. by rewrite Hnone.
Qed.


(** * The further properties at work on the example force field *)

Lemma add_smirks_other_types_witness :
  (∀ p, p ∈ [example_smirk_co] → sm_type p ≠ Angles) ∧
  get_parameter_handler (add_smirks example_forcefield [example_smirk_co] true)
    Angles = [].
Proof.
  assert (∀ p, p ∈ [example_smirk_co] → sm_type p ≠ Angles) as Hnone.
  { intros p Hp. apply list_elem_of_singleton in Hp as ->. discriminate. }
  split; [exact Hnone|].
  exact (add_smirks_other_types example_forcefield [example_smirk_co] true
           Angles Hnone).
Defined.

Lemma add_smirks_untouched_witness :
  (get_parameter_handler example_forcefield Bonds !! 1 = Some example_ch ∧
   ∀ p, p ∈ [example_smirk_cc] → sm_type p = Bonds →
        sm_smirks p ≠ pt_smirks example_ch) ∧
  get_parameter_handler (add_smirks example_forcefield [example_smirk_cc] true)
    Bonds !! 1 = Some example_ch.
Proof.
  assert (∀ p, p ∈ [example_smirk_cc] → sm_type p = Bonds →
            sm_smirks p ≠ pt_smirks example_ch) as Hother.
  { intros p Hp _. apply list_elem_of_singleton in Hp as ->. discriminate. }
  split; [split; [reflexivity|exact Hother]|].
  exact (add_smirks_untouched example_forcefield [example_smirk_cc] true Bonds
           1 example_ch eq_refl Hother).
Defined.

Lemma add_smirks_then_lookup_witness :
  example_smirk_cc_later ∈
    [example_smirk_cc; example_smirk_co; example_smirk_cc_later] ∧
  ∃ r,
    ParameterList_getitem
      (get_parameter_handler
         (add_smirks example_forcefield
            [example_smirk_cc; example_smirk_co; example_smirk_cc_later] true)
         Bonds)
      "[#6:1]-[#6:2]" = Some r ∧
    pt_fields r !! "k" = Some "620.0".
Proof.
  assert (example_smirk_cc_later ∈
            [example_smirk_cc; example_smirk_co; example_smirk_cc_later])
    as Hin by (right; right; left).
  split; [exact Hin|].
  destruct (add_smirks_then_lookup example_forcefield
              [example_smirk_cc; example_smirk_co; example_smirk_cc_later]
              true example_smirk_cc_later Hin)
    as (j & q & r & Hfirst & Hget & _ & Hvalues).
  exists r. split; [exact Hget|].
  assert (Some (j, q) = Some (0, example_smirk_cc)) as Hq.
  { rewrite <- Hfirst. reflexivity. }
  injection Hq as _ ->.
  rewrite (Hvalues "k") by discriminate. reflexivity.
Defined.

Lemma add_smirks_parameterize_field_witness :
  example_smirk_co ∈ [example_smirk_cc; example_smirk_co] ∧
  ∃ r,
    ParameterList_getitem
      (get_parameter_handler
         (add_smirks example_forcefield [example_smirk_cc; example_smirk_co]
            false) Bonds)
      "[#6:1]-[#8:2]" = Some r ∧
    pt_fields r !! "parameterize" = None.
Proof.
  assert (example_smirk_co ∈ [example_smirk_cc; example_smirk_co]) as Hin
    by (right; left).
  split; [exact Hin|].
  destruct (add_smirks_parameterize_field example_forcefield
              [example_smirk_cc; example_smirk_co] false example_smirk_co Hin)
    as (j & q & r & _ & Hget & Hfield).
  exists r. split; [exact Hget|exact Hfield].
Defined.

Lemma add_smirks_ids_distinct_witness :
  (NoDup (pt_id <$> get_parameter_handler example_forcefield Bonds) ∧
   ∀ j, j < length (unique_params Bonds [example_smirk_co; example_smirk_cn]) →
        _smirks_ids Bonds +:+
          pretty (length (get_parameter_handler example_forcefield Bonds)
                  + (2 + j))
        ∉ pt_id <$> get_parameter_handler example_forcefield Bonds) ∧
  NoDup (pt_id <$> get_parameter_handler
                     (add_smirks example_forcefield
                        [example_smirk_co; example_smirk_cn] true) Bonds).
Proof.
  assert (NoDup (pt_id <$> get_parameter_handler example_forcefield Bonds))
    as Hnd.
  { change (NoDup ["b1"; "b2"]). apply (bool_decide_unpack _). by vm_compute. }
  assert (∀ j,
            j < length (unique_params Bonds [example_smirk_co; example_smirk_cn]) →
            _smirks_ids Bonds +:+
              pretty (length (get_parameter_handler example_forcefield Bonds)
                      + (2 + j))
            ∉ pt_id <$> get_parameter_handler example_forcefield Bonds)
    as Hfresh.
  { intros j Hj. change (j < 2) in Hj.
    destruct j as [|[|j]]; [| |lia];
      apply (bool_decide_unpack _); by vm_compute. }
  split; [by split|].
  exact (add_smirks_ids_distinct example_forcefield
           [example_smirk_co; example_smirk_cn] true Bonds Hnd Hfresh).
Defined.

Lemma add_smirks_ignores_later_equal_witness :
  (∃ q, q ∈ [example_smirk_cc] ∧ smirks_eq example_smirk_cc_later q) ∧
  add_smirks example_forcefield
    ([example_smirk_cc] ++ example_smirk_cc_later :: [example_smirk_co]) true =
  add_smirks example_forcefield ([example_smirk_cc] ++ [example_smirk_co]) true.
Proof.
  assert (∃ q, q ∈ [example_smirk_cc] ∧ smirks_eq example_smirk_cc_later q)
    as Hq.
  { exists example_smirk_cc. split; [by left|by split]. }
  split; [exact Hq|].
  exact (add_smirks_ignores_later_equal example_forcefield [example_smirk_cc]
           [example_smirk_co] example_smirk_cc_later true Hq).
Defined.

Lemma get_smirks_parameters_fails_witness :
  ([0; 1; 2; 3; 4] ∈ [[0; 1]; [0; 1; 2; 3; 4]] ∧
   4 < length [0; 1; 2; 3; 4]) ∧
  get_smirks_parameters unit example_label_molecules example_forcefield ()
    [[0; 1]; [0; 1; 2; 3; 4]] = raise KeyError.
Proof.
  assert ([0; 1; 2; 3; 4] ∈ [[0; 1]; [0; 1; 2; 3; 4]]) as Hin
    by (right; left).
  split; [split; [exact Hin|simpl; lia]|].
  apply (get_smirks_parameters_fails unit example_label_molecules
           example_forcefield () _ [0; 1; 2; 3; 4] Hin).
  right. left. simpl. lia.
Defined.

Lemma get_smirks_parameters_partition_witness :
  get_smirks_parameters unit example_label_molecules example_forcefield ()
    [[0; 1]; [1; 2]; [0; 2]] =
  ret [atoms_add (atoms_add (smirks_from_off example_cc) [0; 1]) [0; 2];
       atoms_add (smirks_from_off example_ch) [1; 2]] ∧
  ∃ p,
    p ∈ [atoms_add (atoms_add (smirks_from_off example_cc) [0; 1]) [0; 2];
         atoms_add (smirks_from_off example_ch) [1; 2]] ∧
    [0; 2] ∈ sm_atoms p.
Proof.
  split; [reflexivity|].
  destruct (get_smirks_parameters_partition unit example_label_molecules
              example_forcefield () [[0; 1]; [1; 2]; [0; 2]] _ eq_refl)
    as (Hcover & _ & _).
  destruct (Hcover [0; 2]) as (p & Hp & Ha & _); [right; right; left|].
  exists p. split; [exact Hp|exact Ha].
Defined.

Lemma get_initial_parameters_one_record_witness :
  (sm_atoms example_smirk_cc ≠ ∅ ∧
   ∀ a, a ∈ sm_atoms example_smirk_cc →
        label_molecule unit example_label_molecules example_forcefield ()
          (sm_type example_smirk_cc) a = Some example_cc) ∧
  get_initial_parameters unit example_label_molecules example_default_values
    example_forcefield () example_smirk_cc true =
  ret (update_parameters example_default_values example_smirk_cc example_cc
         true).
Proof.
  assert (sm_atoms example_smirk_cc ≠ ∅) as Hne.
  { intros Hempty. apply (not_elem_of_empty (C:=gset (list nat)) [0; 1]).
    rewrite <- Hempty. change ([0; 1] ∈ ({[ [0; 1] ]} : gset (list nat))).
    by apply elem_of_singleton. }
  assert (∀ a, a ∈ sm_atoms example_smirk_cc →
            label_molecule unit example_label_molecules example_forcefield ()
              (sm_type example_smirk_cc) a = Some example_cc) as Hall.
  { intros a Ha. change (a ∈ ({[ [0; 1] ]} : gset (list nat))) in Ha.
    apply elem_of_singleton in Ha as ->. reflexivity. }
  split; [by split|].
  exact (get_initial_parameters_one_record unit example_label_molecules
           example_default_values example_forcefield () example_smirk_cc true
           example_cc Hne Hall).
Defined.

Lemma example_labels_class t a r :
  label_molecule unit example_label_molecules example_forcefield () t a =
  Some r → pt_class r = t.
Proof.
  unfold label_molecule, example_label_molecules.
  generalize (default 0 (head a)). intros n.
  destruct t; simpl; [|by rewrite lookup_nil..].
  destruct n as [|[|n]]; simpl; [by intros [= <-]..|done].
Qed.

Lemma example_labels_id t a1 a2 r1 r2 :
  label_molecule unit example_label_molecules example_forcefield () t a1 =
  Some r1 →
  label_molecule unit example_label_molecules example_forcefield () t a2 =
  Some r2 →
  pt_smirks r1 = pt_smirks r2 → pt_id r1 = pt_id r2.
Proof.
  unfold label_molecule, example_label_molecules.
  generalize (default 0 (head a1)) (default 0 (head a2)). intros n1 n2.
  destruct t; simpl; [|by rewrite lookup_nil..].
  destruct n1 as [|[|n1]], n2 as [|[|n2]]; simpl;
    intros H1 H2; simplify_eq; done.
Qed.

Lemma get_initial_parameters_of_cluster_witness :
  (get_smirks_parameters unit example_label_molecules example_forcefield ()
     [[0; 1]; [1; 2]; [0; 2]] =
   ret [atoms_add (atoms_add (smirks_from_off example_cc) [0; 1]) [0; 2];
        atoms_add (smirks_from_off example_ch) [1; 2]] ∧
   atoms_add (smirks_from_off example_ch) [1; 2] ∈
     [atoms_add (atoms_add (smirks_from_off example_cc) [0; 1]) [0; 2];
      atoms_add (smirks_from_off example_ch) [1; 2]]) ∧
  ∃ r,
    get_initial_parameters unit example_label_molecules example_default_values
      example_forcefield () (atoms_add (smirks_from_off example_ch) [1; 2])
      false =
    ret (update_parameters example_default_values
           (atoms_add (smirks_from_off example_ch) [1; 2]) r false).
Proof.
  assert (atoms_add (smirks_from_off example_ch) [1; 2] ∈
            [atoms_add (atoms_add (smirks_from_off example_cc) [0; 1]) [0; 2];
             atoms_add (smirks_from_off example_ch) [1; 2]]) as Hin
    by (right; left).
  split; [split; [reflexivity|exact Hin]|].
  destruct (get_initial_parameters_of_cluster unit example_label_molecules
              example_default_values example_forcefield ()
              [[0; 1]; [1; 2]; [0; 2]] _
              (atoms_add (smirks_from_off example_ch) [1; 2]) false
              example_labels_class example_labels_id eq_refl Hin)
    as (a & r & _ & _ & _ & Hret).
  exists r. exact Hret.
Defined.

Lemma enum_fields_are_enum_attributes_witness :
  "status" ∈ _enum_fields ∧
  ∃ v, WorkflowStage_getattr (WorkflowStage_init unit Hessian Serial) "status"
       = ret v ∧
       attribute_is_enum v = true.
Proof.
  assert ("status" ∈ _enum_fields) as Hin by (right; left).
  split; [exact Hin|].
  exact (enum_fields_are_enum_attributes (WorkflowStage_init unit Hessian Serial)
           "status" Hin).
Defined.
